(** * A Chord-style DHT routing core: shallow embedding of [main.py]

    The development follows the Python module top to bottom:
    the [hashlib]/[bisect] library calls the module relies on, the [Node]
    class ([find_successor], [closest_preceding_node], [in_range]) and the
    [ChordRing] class ([add_node], [hash_key], [find_node]).

    Python integers are unbounded, so identifiers are [Z].  Objects are
    referred to by reference: a [Node] value of the program is a location
    into a store of node objects, which lets finger tables point back at
    the node that holds them. *)

From Stdlib Require Import ZArith List Ascii String Lia Sorted Permutation.
From Stdlib Require Import DecimalString.
From stdpp Require Import base option list gmap sorting.

Open Scope Z_scope.

(** ** Outcomes of a Python call *)

(** The built-in exceptions the module can raise. *)
Inductive exn : Set :=
  | KeyError
  | ZeroDivisionError
  | IndexError
  | ValueError.

(** The class name of an exception, as a traceback prints it. *)
Definition exn_name (e : exn) : string :=
  match e with
  | KeyError => "KeyError"
  | ZeroDivisionError => "ZeroDivisionError"
  | IndexError => "IndexError"
  | ValueError => "ValueError"
  end.

Inductive result (A : Type) : Type :=
  | Return (a : A)
  | Raise (e : exn).
Arguments Return {A} a.
Arguments Raise {A} e.

#[global] Instance result_ret : MRet result := fun _ a => Return a.
#[global] Instance result_bind : MBind result := fun _ _ f r =>
  match r with
  | Return a => f a
  | Raise e => Raise e
  end.

(** ** [hashlib.sha1], [hexdigest] and [int(_, 16)] *)

Module Sha1.

Definition w32 (x : Z) : Z := x mod 2 ^ 32.
Definition add32 (x y : Z) : Z := w32 (x + y).
Definition rotl (n x : Z) : Z :=
  Z.lor (w32 (Z.shiftl x n)) (Z.shiftr x (32 - n)).
Definition not32 (x : Z) : Z := Z.lxor x 0xFFFFFFFF.

(** Big-endian bytes of a [k]-byte quantity. *)
Fixpoint be_bytes (k : nat) (x : Z) : list Z :=
  match k with
  | O => []
  | S k' => (Z.shiftr x (8 * Z.of_nat k')) mod 256 :: be_bytes k' x
  end.

Definition be_value (bs : list Z) : Z :=
  fold_left (fun acc b => acc * 256 + b) bs 0.

(** Message padding: a one bit, zeros up to 56 mod 64, the bit length on
    eight bytes. *)
Definition pad (msg : list Z) : list Z :=
  let len := Z.of_nat (length msg) in
  msg ++ [0x80] ++ repeat 0 (Z.to_nat ((55 - len) mod 64))
      ++ be_bytes 8 (8 * len).

(** Cut a list into consecutive pieces of [n] elements; [fuel] bounds the
    number of pieces. *)
Fixpoint chunks {A} (fuel : nat) (n : nat) (l : list A) : list (list A) :=
  match fuel with
  | O => []
  | S fuel' =>
      match l with
      | [] => []
      | _ => firstn n l :: chunks fuel' n (skipn n l)
      end
  end.

Definition words_of_block (block : list Z) : list Z :=
  List.map be_value (chunks 16 4 block).

(** Message schedule, most recent word first: [rw] holds
    [w[i-1]; w[i-2]; ...]. *)
Fixpoint schedule (n : nat) (rw : list Z) : list Z :=
  match n with
  | O => rw
  | S n' =>
      let x := Z.lxor (Z.lxor (nth 2 rw 0) (nth 7 rw 0))
                      (Z.lxor (nth 13 rw 0) (nth 15 rw 0)) in
      schedule n' (rotl 1 x :: rw)
  end.

Definition expand (block : list Z) : list Z :=
  rev (schedule 64 (rev (words_of_block block))).

Record state := State { ha : Z; hb : Z; hc : Z; hd : Z; he : Z }.

Definition init : state :=
  State 0x67452301 0xEFCDAB89 0x98BADCFE 0x10325476 0xC3D2E1F0.

Definition round_fk (i : nat) (b c d : Z) : Z * Z :=
  if (i <? 20)%nat then
    (Z.lor (Z.land b c) (Z.land (not32 b) d), 0x5A827999)
  else if (i <? 40)%nat then
    (Z.lxor (Z.lxor b c) d, 0x6ED9EBA1)
  else if (i <? 60)%nat then
    (Z.lor (Z.lor (Z.land b c) (Z.land b d)) (Z.land c d), 0x8F1BBCDC)
  else
    (Z.lxor (Z.lxor b c) d, 0xCA62C1D6).

Definition round (i : nat) (w : Z) (s : state) : state :=
  let '(f, k) := round_fk i (hb s) (hc s) (hd s) in
  let temp := add32 (add32 (add32 (add32 (rotl 5 (ha s)) f) (he s)) k) w in
  State temp (ha s) (rotl 30 (hb s)) (hc s) (hd s).

Fixpoint rounds (i : nat) (ws : list Z) (s : state) : state :=
  match ws with
  | [] => s
  | w :: ws' => rounds (S i) ws' (round i w s)
  end.

Definition compress (h : state) (block : list Z) : state :=
  let s := rounds 0 (expand block) h in
  State (add32 (ha h) (ha s)) (add32 (hb h) (hb s)) (add32 (hc h) (hc s))
        (add32 (hd h) (hd s)) (add32 (he h) (he s)).

(** The 20 bytes of the digest. *)
Definition digest (msg : list Z) : list Z :=
  let p := pad msg in
  let s := fold_left compress (chunks (length p) 64 p) init in
  be_bytes 4 (ha s) ++ be_bytes 4 (hb s) ++ be_bytes 4 (hc s)
    ++ be_bytes 4 (hd s) ++ be_bytes 4 (he s).

End Sha1.

(** The lower-case hexadecimal digit of a number below 16, from its
    character code. *)
Definition hex_digit (n : Z) : ascii :=
  ascii_of_N (Z.to_N (if n <? 10 then 48 + n else 87 + n)).

(** The value of a hexadecimal digit of either case, from its character
    code: ['0'] is 48, ['A'] is 65, ['a'] is 97. *)
Definition hex_value (c : ascii) : option Z :=
  let code := Z.of_N (N_of_ascii c) in
  if (48 <=? code) && (code <=? 57) then Some (code - 48)
  else if (97 <=? code) && (code <=? 102) then Some (code - 87)
  else if (65 <=? code) && (code <=? 70) then Some (code - 55)
  else None.

(** [bytes.hex()]: two lower-case digits per byte. *)
Fixpoint hex_of_bytes (bs : list Z) : string :=
  match bs with
  | [] => EmptyString
  | b :: bs' =>
      String (hex_digit (b / 16)) (String (hex_digit (b mod 16)) (hex_of_bytes bs'))
  end.

(** [str.encode()].  A Python [str] is represented by the string of the
    bytes of its UTF-8 encoding, so encoding reads the bytes off. *)
Definition encode (s : string) : list Z :=
  List.map (fun c => Z.of_N (N_of_ascii c)) (list_ascii_of_string s).

Definition sha1_hexdigest (msg : list Z) : string :=
  hex_of_bytes (Sha1.digest msg).

(** [int(s, 16)] on a string of hexadecimal digits; any other character,
    and the empty string, is a [ValueError]. *)
Fixpoint int16_digits (acc : Z) (s : string) : result Z :=
  match s with
  | EmptyString => Return acc
  | String c s' =>
      match hex_value c with
      | Some d => int16_digits (acc * 16 + d) s'
      | None => Raise ValueError
      end
  end.

Definition int16 (s : string) : result Z :=
  match s with
  | EmptyString => Raise ValueError
  | _ => int16_digits 0 s
  end.

(** ** Objects *)

(** A reference to a [Node] object. *)
Definition loc := nat.

(** What a finger-table entry holds: [None] or a reference to a node. *)
Inductive slot : Set :=
  | PyNone
  | Ref (n : loc).

(** The attributes of a [Node] object.  [data] and [finger_table] are
    dicts; the finger table is indexed by the level, an [int]. *)
Record Node := mkNode {
  identifier : Z;
  data : gmap Z string;
  finger_table : gmap Z slot;
}.

(** [Node.__init__]. *)
Definition Node_init (identifier : Z) : Node := mkNode identifier ∅ ∅.

(** The store of node objects.  Every reference a program holds denotes an
    object, so the store is total.  No method of the module assigns an
    attribute of a node after its creation: the store is read only. *)
Definition store := loc -> Node.

(** ** class Node *)

(** [Node.in_range].  The method does not use [self].  The chained
    comparison [start < target <= end] is the conjunction of its two
    halves. *)
Definition in_range (target start end_ : Z) : bool :=
  if start <=? end_ then (start <? target) && (target <=? end_)
  else (start <? target) || (target <=? end_).

(** [range(n, 0, -1)]: the levels [n, n-1, ..., 1]. *)
Fixpoint countdown (n : nat) : list Z :=
  match n with
  | O => []
  | S k => Z.of_nat (S k) :: countdown k
  end.

(** The [for] loop of [closest_preceding_node] over the remaining levels.
    [self.finger_table[i]] is a [KeyError] when the dict has no key [i];
    [and] does not evaluate its right operand when the entry is [None]. *)
Fixpoint scan_fingers (st : store) (self : loc) (key : Z) (levels : list Z)
    : result loc :=
  match levels with
  | [] => Return self
  | i :: rest =>
      match finger_table (st self) !! i with
      | None => Raise KeyError
      | Some PyNone => scan_fingers st self key rest
      | Some (Ref f) =>
          if in_range (identifier (st f)) (identifier (st self)) key
          then Return f
          else scan_fingers st self key rest
      end
  end.

(** The entry at level [i] lets the scan go on to the next level: it holds
    [None], or a node whose identifier is not in range. *)
Definition no_match (st : store) (self : loc) (key : Z) (i : Z) : Prop :=
  finger_table (st self) !! i = Some PyNone
  \/ exists f, finger_table (st self) !! i = Some (Ref f)
       /\ in_range (identifier (st f)) (identifier (st self)) key = false.

(** [Node.closest_preceding_node]. *)
Definition closest_preceding_node (st : store) (self : loc) (key : Z)
    : result loc :=
  scan_fingers st self key (countdown 160).

(** [Node.find_successor].  The method calls itself on the node it got from
    [closest_preceding_node]; [depth] bounds the number of nested calls,
    and [None] says that the call needs more than [depth] frames. *)
Fixpoint find_successor (depth : nat) (st : store) (self : loc) (key : Z)
    : option (result loc) :=
  match depth with
  | O => None
  | S depth' =>
      if decide (is_Some (data (st self) !! key)) then Some (Return self)
      else
        match closest_preceding_node st self key with
        | Return successor => find_successor depth' st successor key
        | Raise e => Some (Raise e)
        end
  end.

(** ** [list.sort] and [bisect.bisect_left] *)

(** [list.sort(key=...)] is a stable sort: elements with equal keys keep
    their order.  Insertion from the right end of the list is the reference
    stable sort. *)
Fixpoint insert_by {A} (key : A -> Z) (x : A) (l : list A) : list A :=
  match l with
  | [] => [x]
  | y :: l' => if key x <=? key y then x :: y :: l' else y :: insert_by key x l'
  end.

Definition list_sort {A} (key : A -> Z) (l : list A) : list A :=
  foldr (insert_by key) [] l.

(** The loop of [bisect_left]:
    [while lo < hi: mid = (lo + hi) // 2;
     if a[mid] < x: lo = mid + 1 else: hi = mid]. *)
Fixpoint bisect_loop (fuel : nat) (a : list Z) (x : Z) (lo hi : nat) : nat :=
  match fuel with
  | O => lo
  | S fuel' =>
      if (lo <? hi)%nat then
        let mid := ((lo + hi) / 2)%nat in
        if nth mid a 0 <? x then bisect_loop fuel' a x (mid + 1) hi
        else bisect_loop fuel' a x lo mid
      else lo
  end.

(** [bisect.bisect_left(a, x)], with [lo = 0] and [hi = len(a)].  Each
    iteration shrinks [hi - lo], so [len(a)] iterations are enough. *)
Definition bisect_left (a : list Z) (x : Z) : nat :=
  bisect_loop (length a) a x 0 (length a).

(** What the loop of [bisect_left] keeps: everything left of [lo] is below
    [x], everything from [hi] on is not. *)
Definition bisect_inv (a : list Z) (x : Z) (lo hi : nat) : Prop :=
  (lo <= hi <= length a)%nat
  /\ (forall i, (i < lo)%nat -> nth i a 0 < x)
  /\ (forall i, (hi <= i < length a)%nat -> x <= nth i a 0).

(** ** class ChordRing *)

(** The attributes of a [ChordRing] object.  The methods run sequentially
    here: [with self.lock] takes a free lock and gives it back when its
    body ends, so the lock is free between any two calls and is not part
    of the state. *)
Record ChordRing := mkRing { nodes : list loc }.

(** [ChordRing.__init__]. *)
Definition ChordRing_init : ChordRing := mkRing [].

(** A method of the ring: from the ring before the call to the outcome and
    the ring after it. *)
Definition ring_op (A : Type) : Type := ChordRing -> result A * ChordRing.

(** [ChordRing.add_node]. *)
Definition add_node (st : store) (node : loc) : ring_op unit := fun r =>
  (Return tt,
   mkRing (list_sort (fun x => identifier (st x)) (nodes r ++ [node]))).

(** [ChordRing.hash_key].  The method does not use [self]. *)
Definition hash_key (key : string) : result Z :=
  int16 (sha1_hexdigest (encode key)).

(** [ChordRing.find_node].  [%] by zero is a [ZeroDivisionError]; a list
    index out of range is an [IndexError]. *)
Definition find_node (st : store) (key : string) : ring_op loc := fun r =>
  (hashed_key ← hash_key key;
   let index_raw :=
     bisect_left (List.map (fun node => identifier (st node)) (nodes r)) hashed_key in
   if (length (nodes r) =? 0)%nat then Raise ZeroDivisionError
   else
     let index := (index_raw mod length (nodes r))%nat in
     match nodes r !! index with
     | Some node => Return node
     | None => Raise IndexError
     end,
   r).

(** The ring after a sequence of [add_node] calls. *)
Definition add_nodes (st : store) (ns : list loc) (r : ChordRing) : ChordRing :=
  fold_left (fun r n => snd (add_node st n r)) ns r.

(** The identifiers of the members, in list order. *)
Definition member_ids (st : store) (r : ChordRing) : list Z :=
  List.map (fun node => identifier (st node)) (nodes r).

(** ** Sample objects *)

(** A finger table with the same entry at each of the levels 1..160. *)
Definition fingers_all (s : slot) : gmap Z slot :=
  list_to_map (List.map (fun i => (i, s)) (countdown 160)).

(** Nodes as [Node(10)] leaves them: no data, no finger-table entry. *)
Definition st_fresh : store := fun _ => Node_init 10.

(** Nodes whose 160 levels all hold [None]. *)
Definition st_none : store := fun _ => mkNode 10 ∅ (fingers_all PyNone).

(** Nodes whose levels hold [None], except level 100, which has no entry. *)
Definition st_gap : store := fun _ =>
  mkNode 10 ∅ (delete 100 (fingers_all PyNone)).

(** Nodes whose fingers all point back at the node itself; node [n] has
    identifier [10 * n]. *)
Definition st_self : store := fun n =>
  mkNode (10 * Z.of_nat n) ∅ (fingers_all (Ref n)).

(** Two nodes, with identifiers 10 and 60, each with all its fingers on
    the other. *)
Definition st_pair : store := fun n =>
  match n with
  | O => mkNode 10 ∅ (fingers_all (Ref 1%nat))
  | _ => mkNode 60 ∅ (fingers_all (Ref 0%nat))
  end.

(** Three nodes with identifiers 10, 60 and 180 (node 3 and up: 180). *)
Definition st_three : store := fun n =>
  match n with
  | O => Node_init 10
  | 1%nat => Node_init 60
  | _ => Node_init 180
  end.

(** Nodes that all have identifier 5. *)
Definition st_same : store := fun _ => Node_init 5.

(** Nodes whose levels 1..160 hold [None] and whose finger table also has
    entries at the levels 0 and 161, which the scan never reads. *)
Definition st_none_wide : store := fun _ =>
  mkNode 10 ∅ (<[0 := Ref 7%nat]> (<[161 := Ref 8%nat]> (fingers_all PyNone))).

(** Node 0 holds key 42; node 1 does not, and all its fingers are on
    node 0; the identifiers are 10 and 60. *)
Definition st_holder : store := fun n =>
  match n with
  | O => mkNode 10 {[ 42 := "v"%string ]} (fingers_all (Ref 1%nat))
  | _ => mkNode 60 ∅ (fingers_all (Ref 0%nat))
  end.

(** Nodes 0, 1, 2 with identifiers 10, 60, 10: nodes 0 and 2 collide. *)
Definition st_collide : store := fun n =>
  match n with
  | 1%nat => Node_init 60
  | _ => Node_init 10
  end.

(** Node 0, with identifier 10, has node 2 (identifier 180) at the levels
    above 100 and node 1 (identifier 60) at the levels up to 100. *)
Definition st_ladder : store := fun n =>
  match n with
  | O =>
      mkNode 10 ∅
        (list_to_map
           (List.map (fun i => (i, if 100 <? i then Ref 2%nat else Ref 1%nat))
              (countdown 160)))
  | 1%nat => Node_init 60
  | _ => Node_init 180
  end.

(** Nodes 0 and 1 with identifiers 10 and 60; the other nodes have the
    identifier [2^160], above every value of [hash_key]. *)
Definition st_wide : store := fun n =>
  match n with
  | O => Node_init 10
  | 1%nat => Node_init 60
  | _ => Node_init (2 ^ 160)
  end.

(** ** Reference lookups

    The linear counterparts of what [find_node] and [add_node] compute with
    [bisect_left] and [list.sort]; the properties relate the two. *)

(** The first node of [l], in list order, whose identifier is at least
    [h]. *)
Fixpoint first_ge (st : store) (h : Z) (l : list loc) : option loc :=
  match l with
  | [] => None
  | y :: l' => if h <=? identifier (st y) then Some y else first_ge st h l'
  end.

(** The successor of [h] on the ring [l]: the first node at or after [h],
    and the first node of all when there is none. *)
Definition successor_of (st : store) (h : Z) (l : list loc) : option loc :=
  match first_ge st h l with
  | Some y => Some y
  | None => head l
  end.

(** Insertion of [x] behind the elements whose key is at most its own. *)
Fixpoint insert_last {A} (key : A -> Z) (x : A) (l : list A) : list A :=
  match l with
  | [] => [x]
  | y :: l' =>
      if key y <=? key x then y :: insert_last key x l' else x :: y :: l'
  end.

(** ** [main] *)

(** [print(label, v)] for an [int] [v]: the two arguments, in the form
    [str] gives them, with a space between; the result is the line
    without its newline. *)
Definition py_print (label : string) (v : Z) : string :=
  (label ++ " " ++ NilZero.string_of_int (Z.to_int v))%string.

(** The two objects [main] creates: [node1] is node 0 and [node2] is
    node 1. *)
Definition main_store (id1 id2 : Z) : store := fun n =>
  match n with
  | O => Node_init id1
  | _ => Node_init id2
  end.

(** [main]: the lines printed, and how the call ends. *)
Definition main : list string * result unit :=
  let ring := ChordRing_init in
  match hash_key "node1" with
  | Raise e => ([], Raise e)
  | Return id1 =>
      match hash_key "node2" with
      | Raise e => ([], Raise e)
      | Return id2 =>
          let st := main_store id1 id2 in
          let ring := snd (add_node st 0%nat ring) in
          let ring := snd (add_node st 1%nat ring) in
          match find_node st "key1" ring with
          | (Raise e, _) => ([], Raise e)
          | (Return owner1, ring) =>
              let line1 :=
                py_print "Node responsible for 'key1':" (identifier (st owner1)) in
              match find_node st "key2" ring with
              | (Raise e, _) => ([line1], Raise e)
              | (Return owner2, _) =>
                  ([line1;
                    py_print "Node responsible for 'key2':"
                      (identifier (st owner2))],
                   Return tt)
              end
          end
      end
  end.

(** * Properties *)

Example sha1_abc : sha1_hexdigest (encode "abc") = "a9993e364706816aba3e25717850c26c9cd0d89d"%string.
Proof. vm_compute. reflexivity. Qed.

Example sha1_empty : sha1_hexdigest (encode "") = "da39a3ee5e6b4b0d3255bfef95601890afd80709"%string.
Proof. vm_compute. reflexivity. Qed.

Example sha1_long :
  sha1_hexdigest (encode "abcdbcdecdefdefgefghfghighijhijkijkljklmklmnlmnomnopnopq")
  = "84983e441c3bd26ebaae4aa1f95129e5e54670f1"%string.
Proof. vm_compute. reflexivity. Qed.

(** ** [in_range] *)

Section InRange.

Lemma in_range_no_wrap (target start end_ : Z) :
  start <= end_ ->
  in_range target start end_ = true <-> start < target <= end_.
Proof.
  intros Hle. unfold in_range.
  destruct (Z.leb_spec start end_); [| lia].
  rewrite andb_true_iff, Z.ltb_lt, Z.leb_le. tauto.
Qed.

Lemma in_range_wrap (target start end_ : Z) :
  start > end_ ->
  in_range target start end_ = true <-> target > start \/ target <= end_.
Proof.
  intros Hgt. unfold in_range.
  destruct (Z.leb_spec start end_); [lia |].
  rewrite orb_true_iff, Z.ltb_lt, Z.leb_le. lia.
Qed.

(** C6: without wrap ([start <= end]) [in_range] holds exactly when
    [start < target <= end]; with wrap ([start > end]) exactly when
    [target > start] or [target <= end]. *)
Theorem in_range_spec (target start end_ : Z) :
  (start <= end_ ->
     (in_range target start end_ = true <-> start < target <= end_))
  /\ (start > end_ ->
     (in_range target start end_ = true <-> target > start \/ target <= end_)).
Proof.
  split; [apply in_range_no_wrap | apply in_range_wrap].
Qed.

Lemma in_range_spec_witness :
  (3 <= 9 /\ in_range 5 3 9 = true) /\ (9 > 3 /\ in_range 1 9 3 = true).
Proof.
  split; split; try lia.
  - destruct (in_range_spec 5 3 9) as [H _]. apply H; lia.
  - destruct (in_range_spec 1 9 3) as [_ H]. apply H; lia.
Defined.

(** C10: the interval from [x] to [x] is empty: no target is in range. *)
Theorem in_range_degenerate_empty (target x : Z) :
  in_range target x x = false.
Proof.
  unfold in_range. rewrite Z.leb_refl.
  apply andb_false_iff.
  destruct (Z.ltb_spec x target); [right; apply Z.leb_gt; lia | now left].
Qed.

Lemma in_range_start_excluded (start end_ : Z) :
  in_range start start end_ = false.
Proof.
  unfold in_range. rewrite Z.ltb_irrefl. simpl.
  destruct (Z.leb_spec start end_); reflexivity.
Qed.

Lemma in_range_end_included (start end_ : Z) :
  start <> end_ -> in_range end_ start end_ = true.
Proof.
  intros Hne. unfold in_range. rewrite Z.leb_refl.
  destruct (Z.leb_spec start end_).
  - rewrite andb_true_r. apply Z.ltb_lt. lia.
  - apply orb_true_r.
Qed.

(** C5, as the code has it: the end is in range whenever it differs from
    the start, and the start never is, with or without wrap. *)
Theorem in_range_boundary (start end_ : Z) :
  (start <> end_ -> in_range end_ start end_ = true)
  /\ in_range start start end_ = false.
Proof.
  split; [apply in_range_end_included | apply in_range_start_excluded].
Qed.

Lemma in_range_boundary_witness :
  (3 <> 9 /\ in_range 9 3 9 = true) /\ (9 <> 3 /\ in_range 3 9 3 = true).
Proof.
  split; split; try lia.
  - destruct (in_range_boundary 3 9) as [H _]. apply H; lia.
  - destruct (in_range_boundary 9 3) as [H _]. apply H; lia.
Defined.

(** C5 fails where the start is the end: with [start = end = 7] the end
    is not in range. *)
Lemma in_range_end_excluded_when_equal :
  in_range 7 7 7 = false.
Proof. reflexivity. Qed.

End InRange.

(** ** [closest_preceding_node] *)

Lemma elem_of_countdown (n : nat) (i : Z) :
  i ∈ countdown n <-> 1 <= i <= Z.of_nat n.
Proof.
  induction n as [| n IH].
  - simpl. rewrite elem_of_nil. lia.
  - change (countdown (S n)) with (Z.of_nat (S n) :: countdown n).
    rewrite elem_of_cons, IH. lia.
Qed.

(** The levels from [n] down to 1 are those above [i] followed by those
    from [i] down to 1. *)
Lemma countdown_split (n i : nat) :
  (i <= n)%nat ->
  exists above,
    countdown n = above ++ countdown i
    /\ forall j, j ∈ above -> Z.of_nat i < j <= Z.of_nat n.
Proof.
  induction n as [| n IH]; intros Hle.
  - exists []. assert (i = O) by lia. subst. split; [reflexivity |].
    intros j Hj. now apply elem_of_nil in Hj.
  - destruct (decide (i = S n)) as [-> | Hne].
    + exists []. split; [reflexivity |].
      intros j Hj. now apply elem_of_nil in Hj.
    + destruct IH as (above & Heq & Hin); [lia |].
      exists (Z.of_nat (S n) :: above). split.
      * change (countdown (S n)) with (Z.of_nat (S n) :: countdown n).
        now rewrite Heq.
      * intros j [-> | Hj]%elem_of_cons; [lia |].
        specialize (Hin j Hj). lia.
Qed.

Lemma fingers_lookup (s : slot) (n : nat) (i : Z) :
  1 <= i <= Z.of_nat n ->
  (list_to_map (List.map (fun i => (i, s)) (countdown n)) : gmap Z slot) !! i
  = Some s.
Proof.
  induction n as [| n IH]; intros Hi; [lia |].
  change (countdown (S n)) with (Z.of_nat (S n) :: countdown n).
  simpl. destruct (decide (Z.of_nat (S n) = i)) as [<- | Hne].
  - apply lookup_insert_eq.
  - rewrite lookup_insert_ne by assumption. apply IH. lia.
Qed.

Lemma fingers_all_lookup (s : slot) (i : Z) :
  1 <= i <= 160 -> fingers_all s !! i = Some s.
Proof. intros Hi. apply fingers_lookup. lia. Qed.

Section ClosestPrecedingNode.

Variable st : store.
Variables (self : loc) (key : Z).

Local Abbreviation fingers := (finger_table (st self)).
Local Abbreviation no_match := (no_match st self key).

Lemma scan_fingers_app_no_match (l1 l2 : list Z) :
  (forall j, j ∈ l1 -> no_match j) ->
  scan_fingers st self key (l1 ++ l2) = scan_fingers st self key l2.
Proof.
  induction l1 as [| i l1 IH]; intros Hall; [reflexivity |].
  simpl. destruct (Hall i) as [Hnone | (f & Hf & Hout)].
  - apply elem_of_cons. now left.
  - rewrite Hnone. apply IH.
    intros j Hj. apply Hall, elem_of_cons. now right.
  - rewrite Hf, Hout. apply IH.
    intros j Hj. apply Hall, elem_of_cons. now right.
Qed.

Lemma scan_fingers_missing (i : Z) (rest : list Z) :
  fingers !! i = None ->
  scan_fingers st self key (i :: rest) = Raise KeyError.
Proof. intros Hi. simpl. now rewrite Hi. Qed.

Lemma scan_fingers_none (i : Z) (rest : list Z) :
  fingers !! i = Some PyNone ->
  scan_fingers st self key (i :: rest) = scan_fingers st self key rest.
Proof. intros Hi. simpl. now rewrite Hi. Qed.

(** When every level scanned holds a node, the scan returns the first
    finger in range, or [self] when no finger is in range. *)
Lemma scan_fingers_populated (levels : list Z) :
  (forall i, i ∈ levels -> exists f, fingers !! i = Some (Ref f)) ->
  exists n,
    scan_fingers st self key levels = Return n
    /\ ((exists i, i ∈ levels /\ fingers !! i = Some (Ref n)
           /\ in_range (identifier (st n)) (identifier (st self)) key = true)
        \/ (n = self
            /\ forall i f, i ∈ levels -> fingers !! i = Some (Ref f) ->
                 in_range (identifier (st f)) (identifier (st self)) key
                 = false)).
Proof.
  induction levels as [| i rest IH]; intros Hpop.
  - exists self. split; [reflexivity |]. right. split; [reflexivity |].
    intros i f Hi. now apply elem_of_nil in Hi.
  - destruct (Hpop i) as [f Hf]; [apply elem_of_cons; now left |].
    simpl. rewrite Hf.
    destruct (in_range (identifier (st f)) (identifier (st self)) key) eqn:Hin.
    + exists f. split; [reflexivity |]. left. exists i.
      split; [apply elem_of_cons; now left | now split].
    + destruct IH as (n & Hscan & Hn).
      { intros j Hj. apply Hpop, elem_of_cons. now right. }
      exists n. split; [assumption |].
      destruct Hn as [(j & Hj & Hjn & Hjin) | [-> Hnone]].
      * left. exists j. split; [apply elem_of_cons; now right | now split].
      * right. split; [reflexivity |].
        intros j g [-> | Hj]%elem_of_cons Hg.
        -- rewrite Hf in Hg. injection Hg as <-. assumption.
        -- now apply (Hnone j g).
Qed.

(** C7: on a node whose levels 1..160 all hold nodes, the call returns a
    finger whose identifier is in range from [self.identifier] to [key], or
    [self] when no finger of the table is in range. *)
Theorem closest_preceding_node_in_range :
  (forall i, 1 <= i <= 160 -> exists f, fingers !! i = Some (Ref f)) ->
  exists n,
    closest_preceding_node st self key = Return n
    /\ ((exists i, 1 <= i <= 160 /\ fingers !! i = Some (Ref n)
           /\ in_range (identifier (st n)) (identifier (st self)) key = true)
        \/ (n = self
            /\ forall i f, 1 <= i <= 160 -> fingers !! i = Some (Ref f) ->
                 in_range (identifier (st f)) (identifier (st self)) key
                 = false)).
Proof.
  intros Hpop. unfold closest_preceding_node.
  destruct (scan_fingers_populated (countdown 160)) as (n & Hscan & Hn).
  { intros i Hi. apply Hpop. apply elem_of_countdown in Hi. lia. }
  exists n. split; [assumption |].
  destruct Hn as [(i & Hi & Hin) | [-> Hnone]].
  - left. exists i. split; [| assumption].
    apply elem_of_countdown in Hi. lia.
  - right. split; [reflexivity |]. intros i f Hi.
    apply Hnone, elem_of_countdown. lia.
Qed.

(** C4, as the code has it: when each level above [i] holds [None] or a
    node that is not in range, a finger table without an entry at level
    [i] makes the call raise [KeyError], and a level [i] that holds [None]
    is passed over: the scan goes on with the levels below [i]. *)
Theorem closest_preceding_node_unpopulated (i : nat) :
  (1 <= i <= 160)%nat ->
  (forall j, Z.of_nat i < j <= 160 -> no_match j) ->
  (fingers !! Z.of_nat i = None ->
     closest_preceding_node st self key = Raise KeyError)
  /\ (fingers !! Z.of_nat i = Some PyNone ->
     closest_preceding_node st self key
     = scan_fingers st self key (countdown (i - 1))).
Proof.
  intros Hi Habove. unfold closest_preceding_node.
  destruct (countdown_split 160 i) as (above & -> & Hin); [lia |].
  rewrite scan_fingers_app_no_match
    by (intros j Hj; apply Habove; specialize (Hin j Hj); lia).
  destruct i as [| i]; [lia |].
  replace (S i - 1)%nat with i by lia.
  change (countdown (S i)) with (Z.of_nat (S i) :: countdown i).
  split; intros Hslot.
  - now apply scan_fingers_missing.
  - now apply scan_fingers_none.
Qed.

End ClosestPrecedingNode.

Lemma st_pair_populated (i : Z) :
  1 <= i <= 160 -> exists f, finger_table (st_pair 0%nat) !! i = Some (Ref f).
Proof.
  intros Hi. exists 1%nat. unfold st_pair. cbn [finger_table].
  now apply fingers_all_lookup.
Qed.

Lemma closest_preceding_node_in_range_witness :
  (forall i, 1 <= i <= 160 ->
     exists f, finger_table (st_pair 0%nat) !! i = Some (Ref f))
  /\ exists n,
      closest_preceding_node st_pair 0%nat 100 = Return n
      /\ ((exists i, 1 <= i <= 160
             /\ finger_table (st_pair 0%nat) !! i = Some (Ref n)
             /\ in_range (identifier (st_pair n)) (identifier (st_pair 0%nat)) 100
                = true)
          \/ (n = 0%nat
              /\ forall i f, 1 <= i <= 160 ->
                   finger_table (st_pair 0%nat) !! i = Some (Ref f) ->
                   in_range (identifier (st_pair f)) (identifier (st_pair 0%nat)) 100
                   = false)).
Proof.
  split; [exact st_pair_populated |].
  exact (closest_preceding_node_in_range st_pair 0%nat 100 st_pair_populated).
Defined.

Lemma st_gap_no_match (key j : Z) :
  100 < j <= 160 -> no_match st_gap 0%nat key j.
Proof.
  intros Hj. left. unfold st_gap. cbn [finger_table].
  rewrite lookup_delete_ne by lia.
  apply fingers_all_lookup. lia.
Qed.

Lemma st_gap_missing : finger_table (st_gap 0%nat) !! Z.of_nat 100 = None.
Proof. unfold st_gap. cbn [finger_table]. apply lookup_delete_eq. Qed.

Lemma closest_preceding_node_unpopulated_witness :
  (1 <= 100 <= 160)%nat
  /\ (forall j, Z.of_nat 100 < j <= 160 -> no_match st_gap 0%nat 5 j)
  /\ finger_table (st_gap 0%nat) !! Z.of_nat 100 = None
  /\ closest_preceding_node st_gap 0%nat 5 = Raise KeyError.
Proof.
  assert (Hi : (1 <= 100 <= 160)%nat) by lia.
  assert (Habove : forall j, Z.of_nat 100 < j <= 160 -> no_match st_gap 0%nat 5 j)
    by (intros j Hj; apply st_gap_no_match; lia).
  split; [exact Hi |]. split; [exact Habove |]. split; [exact st_gap_missing |].
  exact (proj1 (closest_preceding_node_unpopulated st_gap 0%nat 5 100 Hi Habove)
           st_gap_missing).
Defined.

(** C4 fails on a node as [Node(10)] leaves it, where the call raises
    [KeyError], and on a node whose levels all hold [None], where the call
    returns the node itself. *)
Lemma closest_preceding_node_no_IncompleteFingerTable :
  (finger_table (st_fresh 0%nat) !! 160 = None
   /\ closest_preceding_node st_fresh 0%nat 5 = Raise KeyError
   /\ exn_name KeyError <> "IncompleteFingerTable"%string)
  /\ (finger_table (st_none 0%nat) !! 1 = Some PyNone
      /\ closest_preceding_node st_none 0%nat 5 = Return 0%nat).
Proof.
  split; [split; [reflexivity | split; [reflexivity | discriminate]] |].
  split; [now apply fingers_all_lookup | vm_compute; reflexivity].
Qed.

(** ** [find_successor] *)

Lemma find_successor_local (st : store) (self : loc) (key : Z) (depth : nat) :
  is_Some (data (st self) !! key) ->
  find_successor (S depth) st self key = Some (Return self).
Proof. intros Hin. simpl. now rewrite decide_True. Qed.

Lemma find_successor_raise (st : store) (self : loc) (key : Z) (depth : nat) (e : exn) :
  data (st self) !! key = None ->
  closest_preceding_node st self key = Raise e ->
  find_successor (S depth) st self key = Some (Raise e).
Proof.
  intros Hout Hcpn. simpl. rewrite decide_False, Hcpn; [reflexivity |].
  rewrite Hout. now apply is_Some_None.
Qed.

(** A node that does not hold the key and gets itself back from
    [closest_preceding_node] calls itself again with the same key: no depth
    is enough. *)
Lemma find_successor_self_loop (st : store) (self : loc) (key : Z) :
  data (st self) !! key = None ->
  closest_preceding_node st self key = Return self ->
  forall depth, find_successor depth st self key = None.
Proof.
  intros Hout Hcpn. induction depth as [| depth IH]; [reflexivity |].
  simpl. rewrite decide_False, Hcpn; [exact IH |].
  rewrite Hout. now apply is_Some_None.
Qed.

(** C2 at a node whose fingers all point back at itself and that does not
    hold key 5: [closest_preceding_node] returns the node itself, and
    [find_successor] does not return within any depth. *)
Theorem find_successor_self_return_recurses :
  closest_preceding_node st_self 0%nat 5 = Return 0%nat
  /\ forall depth, find_successor depth st_self 0%nat 5 = None.
Proof.
  assert (Hcpn : closest_preceding_node st_self 0%nat 5 = Return 0%nat)
    by (vm_compute; reflexivity).
  split; [exact Hcpn |].
  apply find_successor_self_loop; [reflexivity | exact Hcpn].
Qed.

(** ** [list.sort] *)

Section Sort.

Context {A : Type} (key : A -> Z).

Local Abbreviation key_le := (fun a b : A => key a <= key b).

Lemma insert_by_perm (x : A) (l : list A) :
  Permutation (insert_by key x l) (x :: l).
Proof.
  induction l as [| y l IH]; simpl; [reflexivity |].
  destruct (key x <=? key y); [reflexivity |].
  rewrite IH. apply perm_swap.
Qed.

Lemma list_sort_perm (l : list A) : Permutation (list_sort key l) l.
Proof.
  induction l as [| x l IH]; simpl; [reflexivity |].
  rewrite insert_by_perm. now apply perm_skip.
Qed.

Lemma insert_by_sorted (x : A) (l : list A) :
  StronglySorted key_le l -> StronglySorted key_le (insert_by key x l).
Proof.
  induction 1 as [| y l Hsorted IH Hall]; simpl.
  - constructor; constructor.
  - destruct (Z.leb_spec (key x) (key y)) as [Hle | Hgt].
    + constructor; [now constructor |].
      constructor; [exact Hle |].
      eapply Forall_impl; [exact Hall |]. simpl. intros z Hz. lia.
    + constructor; [exact IH |].
      rewrite insert_by_perm. constructor; [lia | exact Hall].
Qed.

Lemma list_sort_sorted (l : list A) : StronglySorted key_le (list_sort key l).
Proof.
  induction l as [| x l IH]; simpl; [constructor |].
  now apply insert_by_sorted.
Qed.

Lemma sorted_map_key (l : list A) :
  StronglySorted key_le l -> StronglySorted Z.le (List.map key l).
Proof.
  induction 1 as [| y l Hsorted IH Hall]; simpl; constructor; [exact IH |].
  apply Forall_map. exact Hall.
Qed.

(** Stability: the elements with a given key come out in the order they
    went in. *)
Lemma insert_by_stable (k : Z) (x : A) (l : list A) :
  List.filter (fun z => key z =? k) (insert_by key x l)
  = List.filter (fun z => key z =? k) (x :: l).
Proof.
  induction l as [| y l IH]; [reflexivity |].
  cbn [insert_by]. destruct (Z.leb_spec (key x) (key y)) as [Hle | Hgt];
    [reflexivity |].
  cbn [List.filter] in *. rewrite IH.
  destruct (Z.eqb_spec (key x) k), (Z.eqb_spec (key y) k);
    try reflexivity; lia.
Qed.

Lemma list_sort_stable (k : Z) (l : list A) :
  List.filter (fun z => key z =? k) (list_sort key l)
  = List.filter (fun z => key z =? k) l.
Proof.
  induction l as [| x l IH]; [reflexivity |].
  cbn [list_sort foldr]. fold (list_sort key l).
  rewrite insert_by_stable. cbn [List.filter]. now rewrite IH.
Qed.

End Sort.

(** ** [bisect_left] *)

Lemma sorted_nth_le (a : list Z) :
  StronglySorted Z.le a ->
  forall i j, (i <= j < length a)%nat -> nth i a 0 <= nth j a 0.
Proof.
  induction 1 as [| y a Hsorted IH Hall]; intros i j Hij; simpl in Hij; [lia |].
  destruct i as [| i], j as [| j]; simpl; try lia.
  - rewrite Forall_forall in Hall. apply Hall, list_elem_of_In, nth_In. lia.
  - apply IH. lia.
Qed.

Section Bisect.

Variables (a : list Z) (x : Z).
Hypothesis a_sorted : StronglySorted Z.le a.

Local Abbreviation bisect_inv := (bisect_inv a x).

Lemma bisect_loop_S (fuel lo hi : nat) :
  bisect_loop (S fuel) a x lo hi
  = if (lo <? hi)%nat then
      if nth ((lo + hi) / 2)%nat a 0 <? x
      then bisect_loop fuel a x ((lo + hi) / 2 + 1)%nat hi
      else bisect_loop fuel a x lo ((lo + hi) / 2)%nat
    else lo.
Proof. reflexivity. Qed.

Lemma bisect_loop_inv (fuel lo hi : nat) :
  (hi - lo <= fuel)%nat ->
  bisect_inv lo hi ->
  bisect_inv (bisect_loop fuel a x lo hi) (bisect_loop fuel a x lo hi).
Proof.
  revert lo hi. induction fuel as [| fuel IH];
    intros lo hi Hfuel (Hb & Hlo & Hhi).
  - assert (lo = hi) by lia. subst hi.
    split; [simpl; lia |]. split; [exact Hlo | exact Hhi].
  - rewrite bisect_loop_S.
    destruct (Nat.ltb_spec lo hi) as [Hlt | Hge].
    + pose proof (Nat.div_mod_eq (lo + hi) 2) as Hdiv.
      pose proof (Nat.mod_upper_bound (lo + hi) 2) as Hmod.
      set (mid := ((lo + hi) / 2)%nat) in *.
      assert (Hmid : (lo <= mid < hi)%nat) by lia.
      destruct (Z.ltb_spec (nth mid a 0) x) as [Hbelow | Hnot].
      * apply IH; [lia |]. split; [lia |]. split; [| exact Hhi].
        intros i Hi.
        pose proof (sorted_nth_le a a_sorted i mid). lia.
      * apply IH; [lia |]. split; [lia |]. split; [exact Hlo |].
        intros i Hi.
        pose proof (sorted_nth_le a a_sorted mid i). lia.
    + assert (lo = hi) by lia. subst hi.
      split; [lia |]. split; [exact Hlo | exact Hhi].
Qed.

(** On a sorted list [bisect_left] returns the insertion point: the
    elements before it are below [x], the elements from it on are not. *)
Lemma bisect_left_spec :
  (bisect_left a x <= length a)%nat
  /\ (forall i, (i < bisect_left a x)%nat -> nth i a 0 < x)
  /\ (forall i, (bisect_left a x <= i < length a)%nat -> x <= nth i a 0).
Proof.
  unfold bisect_left.
  destruct (bisect_loop_inv (length a) 0 (length a)) as (Hb & Hlo & Hhi).
  - lia.
  - split; [lia |]. split; intros i Hi; lia.
  - split; [lia |]. split; [exact Hlo | exact Hhi].
Qed.

End Bisect.

(** ** [hash_key] *)

Lemma hex_value_digit (n : Z) :
  0 <= n < 16 -> hex_value (hex_digit n) = Some n.
Proof.
  intros Hn. destruct n as [| p | p]; [reflexivity | | lia].
  do 5 (try (destruct p as [p | p |]; try reflexivity; try lia)).
Qed.

Lemma int16_digits_hex (bs : list Z) (acc : Z) :
  Forall (fun b => 0 <= b < 256) bs ->
  int16_digits acc (hex_of_bytes bs)
  = Return (fold_left (fun v b => v * 256 + b) bs acc).
Proof.
  intros Hbs. revert acc.
  induction Hbs as [| b bs Hb Hbs IH]; intros acc; [reflexivity |].
  cbn [hex_of_bytes int16_digits fold_left].
  rewrite !hex_value_digit by (Z.div_mod_to_equations; lia).
  rewrite IH. do 2 f_equal. Z.div_mod_to_equations. lia.
Qed.

Lemma be_bytes_range (k : nat) (x : Z) :
  Forall (fun b => 0 <= b < 256) (Sha1.be_bytes k x).
Proof.
  induction k as [| k IH]; cbn [Sha1.be_bytes]; constructor; [| exact IH].
  apply Z.mod_pos_bound. lia.
Qed.

Lemma be_bytes_length (k : nat) (x : Z) : length (Sha1.be_bytes k x) = k.
Proof. induction k as [| k IH]; cbn [Sha1.be_bytes length]; congruence. Qed.

Lemma digest_range (msg : list Z) :
  Forall (fun b => 0 <= b < 256) (Sha1.digest msg).
Proof.
  unfold Sha1.digest. cbv zeta. rewrite !Forall_app.
  repeat split; apply be_bytes_range.
Qed.

Lemma digest_length (msg : list Z) : length (Sha1.digest msg) = 20%nat.
Proof.
  unfold Sha1.digest. cbv zeta. rewrite !length_app, !be_bytes_length.
  reflexivity.
Qed.


(** [hash_key] returns for every key: the digest read as a big-endian
    number. *)
Lemma hash_key_value (key : string) :
  hash_key key = Return (Sha1.be_value (Sha1.digest (encode key))).
Proof.
  unfold hash_key, sha1_hexdigest, Sha1.be_value.
  pose proof (digest_length (encode key)) as Hlen.
  pose proof (digest_range (encode key)) as Hrange.
  destruct (Sha1.digest (encode key)) as [| b bs]; [discriminate |].
  change (int16 (hex_of_bytes (b :: bs)))
    with (int16_digits 0 (hex_of_bytes (b :: bs))).
  now apply int16_digits_hex.
Qed.


(** ** [add_node] *)

Section Ring.

Variable st : store.

Local Abbreviation ident node := (identifier (st node)).
Local Abbreviation by_ident := (fun node : loc => identifier (st node)).

Lemma add_node_nodes (n : loc) (r : ChordRing) :
  nodes (snd (add_node st n r)) = list_sort by_ident (nodes r ++ [n]).
Proof. reflexivity. Qed.

Lemma add_node_sorted (n : loc) (r : ChordRing) :
  StronglySorted Z.le (member_ids st (snd (add_node st n r))).
Proof.
  unfold member_ids. rewrite add_node_nodes.
  apply (sorted_map_key by_ident), list_sort_sorted.
Qed.

Lemma add_node_perm (n : loc) (r : ChordRing) :
  Permutation (nodes (snd (add_node st n r))) (nodes r ++ [n]).
Proof. rewrite add_node_nodes. apply list_sort_perm. Qed.

Lemma add_nodes_cons (n : loc) (ns : list loc) (r : ChordRing) :
  add_nodes st (n :: ns) r = add_nodes st ns (snd (add_node st n r)).
Proof. reflexivity. Qed.

Lemma add_nodes_sorted (ns : list loc) (r : ChordRing) :
  StronglySorted Z.le (member_ids st r) ->
  StronglySorted Z.le (member_ids st (add_nodes st ns r)).
Proof.
  revert r. induction ns as [| n ns IH]; intros r Hsorted; [exact Hsorted |].
  rewrite add_nodes_cons. apply IH, add_node_sorted.
Qed.

Lemma add_nodes_perm (ns : list loc) (r : ChordRing) :
  Permutation (nodes (add_nodes st ns r)) (nodes r ++ ns).
Proof.
  revert r. induction ns as [| n ns IH]; intros r.
  - simpl. now rewrite app_nil_r.
  - rewrite add_nodes_cons, IH, add_node_perm, <- app_assoc. reflexivity.
Qed.

(** C8, as the code has it: after any sequence of [add_node] calls on a
    new ring the members are in ascending order of identifier, equal
    identifiers allowed, and they are the nodes that were added, each as
    many times as it was added. *)
Theorem add_node_keeps_sorted (ns : list loc) :
  StronglySorted Z.le (member_ids st (add_nodes st ns ChordRing_init))
  /\ Permutation (nodes (add_nodes st ns ChordRing_init)) ns.
Proof.
  split.
  - apply add_nodes_sorted. constructor.
  - apply add_nodes_perm.
Qed.

(** ** [find_node] *)

Lemma find_node_unfold (key : string) (r : ChordRing) (h : Z) :
  hash_key key = Return h ->
  find_node st key r
  = (if (length (nodes r) =? 0)%nat then Raise ZeroDivisionError
     else
       match nodes r !! (bisect_left (member_ids st r) h mod length (nodes r))%nat with
       | Some node => Return node
       | None => Raise IndexError
       end,
     r).
Proof. intros Hh. unfold find_node. rewrite Hh. reflexivity. Qed.

Lemma find_node_no_members (key : string) (r : ChordRing) :
  nodes r = [] -> find_node st key r = (Raise ZeroDivisionError, r).
Proof.
  intros Hnil. rewrite (find_node_unfold key r _ (hash_key_value key)).
  now rewrite Hnil.
Qed.

Lemma find_node_ring_unchanged (key : string) (r : ChordRing) :
  snd (find_node st key r) = r.
Proof. reflexivity. Qed.

Lemma nth_member_ids (r : ChordRing) (i : nat) (node : loc) :
  nodes r !! i = Some node -> nth i (member_ids st r) 0 = identifier (st node).
Proof.
  unfold member_ids. generalize (nodes r). intros l. revert i.
  induction l as [| y l IH]; intros [| i] Hi; simpl in *; try discriminate.
  - now injection Hi as ->.
  - now apply IH.
Qed.

(** On a ring whose members are in ascending order of identifier,
    [find_node] returns the first member at or after the hashed key, and
    the first member of all when the hashed key is above every member. *)
Lemma find_node_on_sorted (key : string) (r : ChordRing) :
  StronglySorted Z.le (member_ids st r) ->
  nodes r <> [] ->
  exists h node,
    hash_key key = Return h
    /\ find_node st key r = (Return node, r)
    /\ node ∈ nodes r
    /\ ((h <= ident node
         /\ forall m, m ∈ nodes r -> h <= ident m -> ident node <= ident m)
        \/ ((forall m, m ∈ nodes r -> ident m < h)
            /\ forall m, m ∈ nodes r -> ident node <= ident m)).
Proof.
  intros Hsorted Hne.
  set (h := Sha1.be_value (Sha1.digest (encode key))).
  assert (Hh : hash_key key = Return h) by apply hash_key_value.
  clearbody h. exists h.
  rewrite (find_node_unfold key r h Hh).
  assert (Hlen : length (member_ids st r) = length (nodes r))
    by apply length_map.
  destruct (bisect_left_spec (member_ids st r) h Hsorted) as (Hb & Hlo & Hhi).
  set (b := bisect_left (member_ids st r) h) in *.
  assert (Hpos : (0 < length (nodes r))%nat)
    by (destruct (nodes r); [congruence | simpl; lia]).
  destruct (Nat.eqb_spec (length (nodes r)) 0) as [Hz | _]; [lia |].
  assert (Hidx : (b mod length (nodes r) < length (nodes r))%nat)
    by (apply Nat.mod_upper_bound; lia).
  destruct (lookup_lt_is_Some_2 (nodes r) _ Hidx) as [node Hnode].
  rewrite Hnode. exists node.
  split; [exact Hh |]. split; [reflexivity |].
  split; [eapply list_elem_of_lookup_2; exact Hnode |].
  assert (Hmember : forall m, m ∈ nodes r ->
            exists j, (j < length (nodes r))%nat
                      /\ nth j (member_ids st r) 0 = ident m).
  { intros m [j Hj]%list_elem_of_lookup_1. exists j.
    split; [eapply lookup_lt_Some; exact Hj | now apply nth_member_ids]. }
  pose proof (nth_member_ids r _ node Hnode) as Hid.
  destruct (decide (b < length (nodes r))%nat) as [Hin | Hout].
  - rewrite Nat.mod_small in Hid by exact Hin.
    left. split.
    + rewrite <- Hid. apply Hhi. lia.
    + intros m Hm Hge. destruct (Hmember m Hm) as (j & Hj & Hjm).
      rewrite <- Hid, <- Hjm. rewrite <- Hjm in Hge.
      destruct (decide (j < b)%nat) as [Hjb | Hjb].
      * specialize (Hlo j Hjb). lia.
      * apply (sorted_nth_le _ Hsorted). lia.
  - assert (Hb_eq : b = length (nodes r)) by lia.
    rewrite Hb_eq, Nat.Div0.mod_same in Hid.
    right. split.
    + intros m Hm. destruct (Hmember m Hm) as (j & Hj & <-).
      apply Hlo. lia.
    + intros m Hm. destruct (Hmember m Hm) as (j & Hj & <-).
      rewrite <- Hid. apply (sorted_nth_le _ Hsorted). lia.
Qed.

(** C1: on a ring built by [add_node] calls that has a member, [find_node]
    returns the member with the smallest identifier at or above
    [hash_key(key)], and the member with the smallest identifier of all
    when [hash_key(key)] is above every member identifier. *)
Theorem find_node_successor (ns : list loc) (key : string) :
  ns <> [] ->
  let r := add_nodes st ns ChordRing_init in
  exists h node,
    hash_key key = Return h
    /\ find_node st key r = (Return node, r)
    /\ node ∈ nodes r
    /\ ((h <= ident node
         /\ forall m, m ∈ nodes r -> h <= ident m -> ident node <= ident m)
        \/ ((forall m, m ∈ nodes r -> ident m < h)
            /\ forall m, m ∈ nodes r -> ident node <= ident m)).
Proof.
  intros Hne r. apply find_node_on_sorted.
  - apply add_nodes_sorted. constructor.
  - intros Hnil. pose proof (add_nodes_perm ns ChordRing_init) as Hperm.
    fold r in Hperm. rewrite Hnil in Hperm. simpl in Hperm.
    apply Permutation_nil in Hperm. congruence.
Qed.

(** C3, as the code has it: on a ring without members [find_node] raises
    [ZeroDivisionError], from the remainder by [len(self.nodes)]; it
    returns no node and raises no [IndexError]. *)
Theorem find_node_empty_ring (key : string) (r : ChordRing) :
  nodes r = [] -> find_node st key r = (Raise ZeroDivisionError, r).
Proof. apply find_node_no_members. Qed.

(** C9: a second [find_node] call for the same key, with no [add_node] in
    between, has the outcome of the first; the calls leave the ring as it
    was. *)
Theorem find_node_deterministic (key : string) (r : ChordRing) :
  let '(first, r1) := find_node st key r in
  let '(second, r2) := find_node st key r1 in
  first = second /\ r1 = r /\ r2 = r.
Proof.
  destruct (find_node st key r) as [first r1] eqn:Hfirst.
  assert (r1 = r) as -> by (now rewrite <- (find_node_ring_unchanged key r), Hfirst).
  rewrite Hfirst. auto.
Qed.

End Ring.

(** ** The properties on sample rings *)

Example bisect_left_70 : bisect_left [10; 60; 180] 70 = 2%nat.
Proof. reflexivity. Qed.

Example bisect_left_5 : bisect_left [10; 60; 180] 5 = 0%nat.
Proof. reflexivity. Qed.

Example bisect_left_250 : bisect_left [10; 60; 180] 250 = 3%nat.
Proof. reflexivity. Qed.

Example add_nodes_three :
  nodes (add_nodes st_three [2; 0; 1]%nat ChordRing_init) = [0; 1; 2]%nat.
Proof. reflexivity. Qed.

Example hash_key_key1 :
  hash_key "key1" = Return 0x1073ab6cda4b991cd29f9e83a307f34004ae9327.
Proof. vm_compute. reflexivity. Qed.

Example find_node_key1 :
  fst (find_node st_three "key1" (add_nodes st_three [2; 0; 1]%nat ChordRing_init))
  = Return 0%nat.
Proof. vm_compute. reflexivity. Qed.

Lemma find_node_successor_witness :
  [2; 0; 1]%nat <> []
  /\ let r := add_nodes st_three [2; 0; 1]%nat ChordRing_init in
     exists h node,
       hash_key "key1" = Return h
       /\ find_node st_three "key1" r = (Return node, r)
       /\ node ∈ nodes r
       /\ ((h <= identifier (st_three node)
            /\ forall m, m ∈ nodes r -> h <= identifier (st_three m) ->
                 identifier (st_three node) <= identifier (st_three m))
           \/ ((forall m, m ∈ nodes r -> identifier (st_three m) < h)
               /\ forall m, m ∈ nodes r ->
                    identifier (st_three node) <= identifier (st_three m))).
Proof.
  assert (Hne : [2; 0; 1]%nat <> []) by discriminate.
  split; [exact Hne |].
  exact (find_node_successor st_three [2; 0; 1]%nat "key1" Hne).
Defined.

Lemma find_node_empty_ring_witness :
  nodes ChordRing_init = []
  /\ find_node st_fresh "key1" ChordRing_init
     = (Raise ZeroDivisionError, ChordRing_init).
Proof.
  split; [reflexivity |].
  exact (find_node_empty_ring st_fresh "key1" ChordRing_init eq_refl).
Defined.

(** C3 fails on a new ring: the error of [find_node("key1")] is
    [ZeroDivisionError], not [EmptyRing]. *)
Lemma new_ring_lookup_raises_ZeroDivisionError :
  exists e,
    fst (find_node st_fresh "key1" ChordRing_init) = Raise e
    /\ e = ZeroDivisionError
    /\ exn_name e <> "EmptyRing"%string.
Proof.
  exists ZeroDivisionError.
  rewrite (find_node_no_members st_fresh "key1" ChordRing_init eq_refl).
  split; [reflexivity |]. split; [reflexivity | discriminate].
Qed.

(** C8 fails for two nodes with the same identifier: both stay in the
    ring. *)
Lemma add_node_keeps_duplicates :
  member_ids st_same (add_nodes st_same [0; 1]%nat ChordRing_init) = [5; 5]
  /\ ~ NoDup (member_ids st_same (add_nodes st_same [0; 1]%nat ChordRing_init)).
Proof.
  assert (Hids : member_ids st_same (add_nodes st_same [0; 1]%nat ChordRing_init)
                 = [5; 5]) by reflexivity.
  split; [exact Hids |].
  rewrite Hids. intros Hnodup.
  apply NoDup_cons in Hnodup as [Hnotin _].
  apply Hnotin, elem_of_cons. now left.
Qed.

(** * Further properties *)

(** ** [in_range]: the two arcs between two identifiers *)

Lemma in_range_same_false (target x : Z) : in_range target x x = false.
Proof.
  unfold in_range. rewrite Z.leb_refl.
  destruct (Z.ltb_spec x target), (Z.leb_spec target x); simpl;
    try reflexivity; lia.
Qed.

(** For two different identifiers, a target is in the range from the first
    to the second exactly when it is not in the range from the second to
    the first: the two arcs cover the identifiers without overlap. *)
Theorem in_range_arcs_complement (target start end_ : Z) :
  start <> end_ ->
  in_range target start end_ = negb (in_range target end_ start).
Proof.
  intros Hne. unfold in_range.
  destruct (Z.leb_spec start end_), (Z.leb_spec end_ start); try lia;
    destruct (Z.ltb_spec start target), (Z.leb_spec target end_),
             (Z.ltb_spec end_ target), (Z.leb_spec target start);
    simpl; try reflexivity; lia.
Qed.

Lemma in_range_arcs_complement_witness :
  3 <> 9 /\ in_range 5 3 9 = negb (in_range 5 9 3).
Proof.
  assert (Hne : 3 <> 9) by lia.
  split; [exact Hne | exact (in_range_arcs_complement 5 3 9 Hne)].
Defined.

(** ** [closest_preceding_node] on any finger table *)

Section ClosestPrecedingNodeAny.

Variable st : store.
Variables (self : loc) (key : Z).

Local Abbreviation fingers := (finger_table (st self)).
Local Abbreviation no_match := (no_match st self key).

Lemma scan_fingers_return (levels : list Z) (n : loc) :
  scan_fingers st self key levels = Return n ->
  n = self
  \/ exists i, i ∈ levels /\ fingers !! i = Some (Ref n)
       /\ in_range (identifier (st n)) (identifier (st self)) key = true.
Proof.
  induction levels as [| i rest IH]; simpl.
  - intros [= <-]. now left.
  - destruct (fingers !! i) as [[| f] |] eqn:Hslot; try discriminate.
    + intros Hscan. destruct (IH Hscan) as [-> | (j & Hj & Hjn)];
        [now left |].
      right. exists j. split; [apply elem_of_cons; now right | exact Hjn].
    + destruct (in_range (identifier (st f)) (identifier (st self)) key) eqn:Hin.
      * intros [= <-]. right. exists i.
        split; [apply elem_of_cons; now left | now split].
      * intros Hscan. destruct (IH Hscan) as [-> | (j & Hj & Hjn)];
          [now left |].
        right. exists j. split; [apply elem_of_cons; now right | exact Hjn].
Qed.

Lemma scan_fingers_raise (levels : list Z) (e : exn) :
  scan_fingers st self key levels = Raise e ->
  e = KeyError /\ exists i, i ∈ levels /\ fingers !! i = None.
Proof.
  induction levels as [| i rest IH]; simpl; [discriminate |].
  destruct (fingers !! i) as [[| f] |] eqn:Hslot.
  - intros Hscan. destruct (IH Hscan) as (-> & j & Hj & Hjn).
    split; [reflexivity |]. exists j.
    split; [apply elem_of_cons; now right | exact Hjn].
  - destruct (in_range (identifier (st f)) (identifier (st self)) key);
      [discriminate |].
    intros Hscan. destruct (IH Hscan) as (-> & j & Hj & Hjn).
    split; [reflexivity |]. exists j.
    split; [apply elem_of_cons; now right | exact Hjn].
  - intros [= <-]. split; [reflexivity |]. exists i.
    split; [apply elem_of_cons; now left | exact Hslot].
Qed.

Lemma scan_fingers_present (levels : list Z) :
  (forall i, i ∈ levels -> is_Some (fingers !! i)) ->
  exists n, scan_fingers st self key levels = Return n.
Proof.
  intros Hall.
  destruct (scan_fingers st self key levels) as [n | e] eqn:Hscan;
    [now exists n |].
  destruct (scan_fingers_raise levels e Hscan) as (_ & i & Hi & Hnone).
  destruct (Hall i Hi) as [s Hs]. congruence.
Qed.

Lemma scan_fingers_all_no_match (levels : list Z) :
  (forall j, j ∈ levels -> no_match j) ->
  scan_fingers st self key levels = Return self.
Proof.
  intros Hall.
  rewrite <- (app_nil_r levels). now rewrite scan_fingers_app_no_match.
Qed.

(** Whatever the finger table holds, a node the call returns is [self] or a
    finger of one of the levels 1..160 whose identifier is in range. *)
Theorem closest_preceding_node_returns_self_or_finger (n : loc) :
  closest_preceding_node st self key = Return n ->
  n = self
  \/ exists i, 1 <= i <= 160 /\ fingers !! i = Some (Ref n)
       /\ in_range (identifier (st n)) (identifier (st self)) key = true.
Proof.
  unfold closest_preceding_node. intros Hcpn.
  destruct (scan_fingers_return (countdown 160) n Hcpn) as [-> | (i & Hi & Hin)];
    [now left |].
  right. exists i. split; [| exact Hin].
  apply elem_of_countdown in Hi. lia.
Qed.

(** The only exception of the call is [KeyError], and it comes from a level
    among 1..160 that has no entry in the finger table. *)
Theorem closest_preceding_node_raises_only_KeyError (e : exn) :
  closest_preceding_node st self key = Raise e ->
  e = KeyError /\ exists i, 1 <= i <= 160 /\ fingers !! i = None.
Proof.
  unfold closest_preceding_node. intros Hcpn.
  destruct (scan_fingers_raise (countdown 160) e Hcpn) as (-> & i & Hi & Hnone).
  split; [reflexivity |]. exists i. split; [| exact Hnone].
  apply elem_of_countdown in Hi. lia.
Qed.

(** When each of the levels 1..160 has an entry, [None] or a node, the call
    returns a node. *)
Theorem closest_preceding_node_returns_when_present :
  (forall i, 1 <= i <= 160 -> is_Some (fingers !! i)) ->
  exists n, closest_preceding_node st self key = Return n.
Proof.
  intros Hall. unfold closest_preceding_node.
  apply (scan_fingers_present (countdown 160)).
  intros i Hi. apply Hall. apply elem_of_countdown in Hi. lia.
Qed.

(** The scan goes from level 160 down: the finger returned is the one at
    the highest level whose node is in range. *)
Theorem closest_preceding_node_highest_level (i : nat) (f : loc) :
  (1 <= i <= 160)%nat ->
  fingers !! Z.of_nat i = Some (Ref f) ->
  in_range (identifier (st f)) (identifier (st self)) key = true ->
  (forall j, Z.of_nat i < j <= 160 -> no_match j) ->
  closest_preceding_node st self key = Return f.
Proof.
  intros Hi Hslot Hin Habove. unfold closest_preceding_node.
  destruct (countdown_split 160 i) as (above & -> & Hmem); [lia |].
  rewrite scan_fingers_app_no_match
    by (intros j Hj; apply Habove; specialize (Hmem j Hj); lia).
  destruct i as [| i]; [lia |].
  change (countdown (S i)) with (Z.of_nat (S i) :: countdown i).
  cbn [scan_fingers]. now rewrite Hslot, Hin.
Qed.

(** A lookup of the node's own identifier finds no finger in range: with an
    entry at each level the call returns [self]. *)
Theorem closest_preceding_node_own_identifier :
  key = identifier (st self) ->
  (forall i, 1 <= i <= 160 -> is_Some (fingers !! i)) ->
  closest_preceding_node st self key = Return self.
Proof.
  intros Hkey Hall. unfold closest_preceding_node.
  apply (scan_fingers_all_no_match (countdown 160)).
  intros j Hj. apply elem_of_countdown in Hj.
  destruct (Hall j) as [[| f] Hs]; [lia | now left |].
  right. exists f. split; [exact Hs |].
  rewrite Hkey. apply in_range_same_false.
Qed.

End ClosestPrecedingNodeAny.


Lemma all_levels_present_returns
    (st : store) (self : loc) (key : Z) :
  (forall i, 1 <= i <= 160 -> is_Some (finger_table (st self) !! i)) ->
  exists n, closest_preceding_node st self key = Return n.
Proof.
  intros Hall. unfold closest_preceding_node.
  apply (scan_fingers_present st self key (countdown 160)).
  intros i Hi. apply Hall. apply elem_of_countdown in Hi. lia.
Qed.

Lemma fingers_fn_lookup (f : Z -> slot) (n : nat) (i : Z) :
  1 <= i <= Z.of_nat n ->
  (list_to_map (List.map (fun i => (i, f i)) (countdown n)) : gmap Z slot) !! i
  = Some (f i).
Proof.
  induction n as [| n IH]; intros Hi; [lia |].
  change (countdown (S n)) with (Z.of_nat (S n) :: countdown n).
  simpl. destruct (decide (Z.of_nat (S n) = i)) as [<- | Hne].
  - apply lookup_insert_eq.
  - rewrite lookup_insert_ne by assumption. apply IH. lia.
Qed.

Lemma st_ladder_lookup (i : Z) :
  1 <= i <= 160 ->
  finger_table (st_ladder 0%nat) !! i
  = Some (if 100 <? i then Ref 2%nat else Ref 1%nat).
Proof.
  intros Hi. unfold st_ladder. cbn [finger_table].
  apply (fingers_fn_lookup (fun i => if 100 <? i then Ref 2%nat else Ref 1%nat)).
  lia.
Qed.

Lemma st_none_present (i : Z) :
  1 <= i <= 160 -> is_Some (finger_table (st_none 0%nat) !! i).
Proof.
  intros Hi. exists PyNone. unfold st_none. cbn [finger_table].
  now apply fingers_all_lookup.
Qed.

Lemma st_pair_present (n : loc) (i : Z) :
  1 <= i <= 160 -> is_Some (finger_table (st_pair n) !! i).
Proof.
  intros Hi. destruct n as [| n]; unfold st_pair; cbn [finger_table];
    eexists; now apply fingers_all_lookup.
Qed.

Lemma closest_preceding_node_returns_self_or_finger_witness :
  closest_preceding_node st_pair 0%nat 100 = Return 1%nat
  /\ (1%nat = 0%nat
      \/ exists i, 1 <= i <= 160
           /\ finger_table (st_pair 0%nat) !! i = Some (Ref 1%nat)
           /\ in_range (identifier (st_pair 1%nat)) (identifier (st_pair 0%nat)) 100
              = true).
Proof.
  assert (Hcpn : closest_preceding_node st_pair 0%nat 100 = Return 1%nat)
    by (vm_compute; reflexivity).
  split; [exact Hcpn |].
  exact (closest_preceding_node_returns_self_or_finger st_pair 0%nat 100 1%nat Hcpn).
Defined.

Lemma closest_preceding_node_raises_only_KeyError_witness :
  closest_preceding_node st_gap 0%nat 5 = Raise KeyError
  /\ KeyError = KeyError
  /\ exists i, 1 <= i <= 160 /\ finger_table (st_gap 0%nat) !! i = None.
Proof.
  assert (Hcpn : closest_preceding_node st_gap 0%nat 5 = Raise KeyError)
    by (vm_compute; reflexivity).
  split; [exact Hcpn |].
  exact (closest_preceding_node_raises_only_KeyError st_gap 0%nat 5 KeyError Hcpn).
Defined.

Lemma closest_preceding_node_returns_when_present_witness :
  (forall i, 1 <= i <= 160 -> is_Some (finger_table (st_none 0%nat) !! i))
  /\ exists n, closest_preceding_node st_none 0%nat 5 = Return n.
Proof.
  split; [exact st_none_present |].
  exact (closest_preceding_node_returns_when_present st_none 0%nat 5 st_none_present).
Defined.

Lemma st_ladder_above (j : Z) :
  Z.of_nat 100 < j <= 160 -> no_match st_ladder 0%nat 100 j.
Proof.
  intros Hj. right. exists 2%nat. split; [| reflexivity].
  rewrite st_ladder_lookup by lia.
  destruct (Z.ltb_spec 100 j); [reflexivity | lia].
Qed.

Lemma closest_preceding_node_highest_level_witness :
  (1 <= 100 <= 160)%nat
  /\ finger_table (st_ladder 0%nat) !! Z.of_nat 100 = Some (Ref 1%nat)
  /\ in_range (identifier (st_ladder 1%nat)) (identifier (st_ladder 0%nat)) 100
     = true
  /\ (forall j, Z.of_nat 100 < j <= 160 -> no_match st_ladder 0%nat 100 j)
  /\ closest_preceding_node st_ladder 0%nat 100 = Return 1%nat.
Proof.
  assert (Hi : (1 <= 100 <= 160)%nat) by lia.
  assert (Hslot : finger_table (st_ladder 0%nat) !! Z.of_nat 100 = Some (Ref 1%nat))
    by (rewrite st_ladder_lookup by lia; reflexivity).
  assert (Hin : in_range (identifier (st_ladder 1%nat))
                  (identifier (st_ladder 0%nat)) 100 = true) by reflexivity.
  split; [exact Hi |]. split; [exact Hslot |]. split; [exact Hin |].
  split; [exact st_ladder_above |].
  exact (closest_preceding_node_highest_level st_ladder 0%nat 100 100 1%nat
           Hi Hslot Hin st_ladder_above).
Defined.

Lemma closest_preceding_node_own_identifier_witness :
  10 = identifier (st_pair 0%nat)
  /\ (forall i, 1 <= i <= 160 -> is_Some (finger_table (st_pair 0%nat) !! i))
  /\ closest_preceding_node st_pair 0%nat 10 = Return 0%nat.
Proof.
  assert (Hkey : 10 = identifier (st_pair 0%nat)) by reflexivity.
  split; [exact Hkey |]. split; [exact (st_pair_present 0%nat) |].
  exact (closest_preceding_node_own_identifier st_pair 0%nat 10 Hkey
           (st_pair_present 0%nat)).
Defined.

Lemma scan_fingers_ext (st st' : store) (self : loc) (key : Z) (levels : list Z) :
  (forall l, identifier (st l) = identifier (st' l)) ->
  (forall i, i ∈ levels ->
     finger_table (st self) !! i = finger_table (st' self) !! i) ->
  scan_fingers st self key levels = scan_fingers st' self key levels.
Proof.
  intros Hid. induction levels as [| i rest IH]; intros Hft; [reflexivity |].
  cbn [scan_fingers].
  rewrite <- (Hft i) by (apply elem_of_cons; now left).
  rewrite IH by (intros j Hj; apply Hft, elem_of_cons; now right).
  destruct (finger_table (st self) !! i) as [[| f] |]; try reflexivity.
  now rewrite !Hid.
Qed.

(** The call reads the identifiers of the nodes and the finger-table
    entries of [self] at the levels 1..160, nothing else: entries at other
    levels, stored data and the finger tables of other nodes do not change
    its outcome. *)
Theorem closest_preceding_node_reads_levels_only
    (st st' : store) (self : loc) (key : Z) :
  (forall l, identifier (st l) = identifier (st' l)) ->
  (forall i, 1 <= i <= 160 ->
     finger_table (st self) !! i = finger_table (st' self) !! i) ->
  closest_preceding_node st self key = closest_preceding_node st' self key.
Proof.
  intros Hid Hft. unfold closest_preceding_node.
  apply scan_fingers_ext; [exact Hid |].
  intros i Hi. apply Hft. apply elem_of_countdown in Hi. lia.
Qed.

Lemma st_none_wide_agrees (i : Z) :
  1 <= i <= 160 ->
  finger_table (st_none 0%nat) !! i = finger_table (st_none_wide 0%nat) !! i.
Proof.
  intros Hi. unfold st_none, st_none_wide. cbn [finger_table].
  rewrite !lookup_insert_ne by lia. reflexivity.
Qed.

Lemma closest_preceding_node_reads_levels_only_witness :
  (forall l, identifier (st_none l) = identifier (st_none_wide l))
  /\ (forall i, 1 <= i <= 160 ->
        finger_table (st_none 0%nat) !! i = finger_table (st_none_wide 0%nat) !! i)
  /\ closest_preceding_node st_none 0%nat 5
     = closest_preceding_node st_none_wide 0%nat 5.
Proof.
  assert (Hid : forall l, identifier (st_none l) = identifier (st_none_wide l))
    by reflexivity.
  split; [exact Hid |]. split; [exact st_none_wide_agrees |].
  exact (closest_preceding_node_reads_levels_only st_none st_none_wide 0%nat 5
           Hid st_none_wide_agrees).
Defined.

(** ** [find_successor]: what it returns, raises, and when it does not end *)

Lemma find_successor_step
    (st : store) (self successor : loc) (key : Z) (depth : nat) :
  data (st self) !! key = None ->
  closest_preceding_node st self key = Return successor ->
  find_successor (S depth) st self key = find_successor depth st successor key.
Proof.
  intros Hout Hcpn. cbn [find_successor].
  rewrite decide_False, Hcpn; [reflexivity |].
  rewrite Hout. now apply is_Some_None.
Qed.

(** The depth is a budget only: an outcome reached within some depth is the
    outcome at every larger depth. *)
Lemma find_successor_depth_mono
    (st : store) (key : Z) (depth depth' : nat) (self : loc) (r : result loc) :
  (depth <= depth')%nat ->
  find_successor depth st self key = Some r ->
  find_successor depth' st self key = Some r.
Proof.
  revert depth' self. induction depth as [| depth IH]; intros depth' self Hle;
    [discriminate |].
  destruct depth' as [| depth']; [lia |].
  cbn [find_successor].
  destruct (decide (is_Some (data (st self) !! key))); [trivial |].
  destruct (closest_preceding_node st self key) as [s | e]; [| trivial].
  apply IH. lia.
Qed.

(** A node that [find_successor] returns holds the key in its [data]: the
    search returns only at a node where [key in self.data]. *)
Theorem find_successor_returns_holder
    (st : store) (key : Z) (depth : nat) (self n : loc) :
  find_successor depth st self key = Some (Return n) ->
  is_Some (data (st n) !! key).
Proof.
  revert self. induction depth as [| depth IH]; intros self; [discriminate |].
  cbn [find_successor].
  destruct (decide (is_Some (data (st self) !! key))) as [Hin | Hout].
  - now intros [= <-].
  - destruct (closest_preceding_node st self key) as [s | e];
      [apply IH | discriminate].
Qed.

Lemma find_successor_returns_holder_witness :
  find_successor 2 st_holder 1%nat 42 = Some (Return 0%nat)
  /\ is_Some (data (st_holder 0%nat) !! 42).
Proof.
  assert (Hrun : find_successor 2 st_holder 1%nat 42 = Some (Return 0%nat))
    by (vm_compute; reflexivity).
  split; [exact Hrun |].
  exact (find_successor_returns_holder st_holder 42 2 1%nat 0%nat Hrun).
Defined.



(** On a node as [Node(identifier)] creates it, [find_successor] raises
    [KeyError] for every key: the node holds no key and its finger table
    has no level 160. *)
Theorem find_successor_fresh_node
    (st : store) (self : loc) (ident key : Z) (depth : nat) :
  st self = Node_init ident ->
  find_successor (S depth) st self key = Some (Raise KeyError).
Proof.
  intros Hfresh. apply find_successor_raise.
  - rewrite Hfresh. apply lookup_empty.
  - unfold closest_preceding_node.
    change (countdown 160) with (160 :: countdown 159).
    apply scan_fingers_missing. rewrite Hfresh. apply lookup_empty.
Qed.

Lemma find_successor_fresh_node_witness :
  st_fresh 0%nat = Node_init 10
  /\ find_successor 1 st_fresh 0%nat 5 = Some (Raise KeyError).
Proof.
  split; [reflexivity |].
  exact (find_successor_fresh_node st_fresh 0%nat 10 5 0 eq_refl).
Defined.

(** When no node holds the key and every finger table has an entry at each
    of its levels 1..160, [find_successor] does not return, from any node
    and within any depth: each call passes the key on. *)
Theorem find_successor_absent_key_never_returns
    (st : store) (key : Z) :
  (forall l, data (st l) !! key = None) ->
  (forall l i, 1 <= i <= 160 -> is_Some (finger_table (st l) !! i)) ->
  forall depth self, find_successor depth st self key = None.
Proof.
  intros Habsent Hpresent. induction depth as [| depth IH]; intros self;
    [reflexivity |].
  destruct (all_levels_present_returns st self key
              (Hpresent self)) as [s Hs].
  rewrite (find_successor_step st self s key depth (Habsent self) Hs).
  apply IH.
Qed.

Lemma st_pair_no_data (l : loc) : data (st_pair l) !! 100 = None.
Proof. destruct l; reflexivity. Qed.

Lemma find_successor_absent_key_never_returns_witness :
  (forall l, data (st_pair l) !! 100 = None)
  /\ (forall l i, 1 <= i <= 160 -> is_Some (finger_table (st_pair l) !! i))
  /\ forall depth self, find_successor depth st_pair self 100 = None.
Proof.
  split; [exact st_pair_no_data |]. split; [exact st_pair_present |].
  exact (find_successor_absent_key_never_returns st_pair 100
           st_pair_no_data st_pair_present).
Defined.

(** ** [hash_key]: the identifier space *)


(** ** [list.sort] after an append *)

Section SortSnoc.

Context {A : Type} (key : A -> Z).

Local Abbreviation key_le := (fun a b : A => key a <= key b).

Lemma insert_by_front (y : A) (l : list A) :
  match l with [] => True | z :: _ => key y <= key z end ->
  insert_by key y l = y :: l.
Proof.
  destruct l as [| z l]; [reflexivity |]. intros Hle. cbn [insert_by].
  destruct (Z.leb_spec (key y) (key z)); [reflexivity | lia].
Qed.

Lemma foldr_insert_by_sorted (x : A) (l : list A) :
  StronglySorted key_le l ->
  foldr (insert_by key) [x] l = insert_last key x l.
Proof.
  induction 1 as [| y l Hsorted IH Hall]; [reflexivity |].
  cbn [foldr insert_last]. rewrite IH.
  destruct (Z.leb_spec (key y) (key x)) as [Hle | Hgt].
  - apply insert_by_front.
    destruct l as [| z l]; [exact Hle |]. cbn [insert_last].
    apply Forall_cons in Hall as [Hyz _].
    destruct (key z <=? key x); assumption.
  - assert (Hlast : insert_last key x l = x :: l).
    { destruct l as [| z l]; [reflexivity |]. cbn [insert_last].
      apply Forall_cons in Hall as [Hyz _].
      destruct (Z.leb_spec (key z) (key x)); [lia | reflexivity]. }
    rewrite Hlast. cbn [insert_by].
    destruct (Z.leb_spec (key y) (key x)); [lia |].
    f_equal. apply insert_by_front.
    destruct l as [| z l]; [exact I |].
    now apply Forall_cons in Hall as [Hyz _].
Qed.

(** Sorting a sorted list with one element appended puts the element behind
    the elements whose key is at most its own. *)
Lemma list_sort_snoc (x : A) (l : list A) :
  StronglySorted key_le l ->
  list_sort key (l ++ [x]) = insert_last key x l.
Proof.
  intros Hsorted. unfold list_sort. rewrite foldr_app.
  now apply foldr_insert_by_sorted.
Qed.

Lemma Forall_le_of_map (k : Z) (l : list A) :
  Forall (Z.le k) (List.map key l) -> Forall (fun b => k <= key b) l.
Proof.
  induction l as [| y l IH]; intros Hall; [constructor |].
  cbn [List.map] in Hall. apply Forall_cons in Hall as [Hy Hl].
  constructor; [exact Hy | now apply IH].
Qed.

Lemma sorted_by_key_of_map (l : list A) :
  StronglySorted Z.le (List.map key l) -> StronglySorted key_le l.
Proof.
  induction l as [| y l IH]; intros Hsorted; [constructor |].
  cbn [List.map] in Hsorted. apply StronglySorted_inv in Hsorted as [Hl Hall].
  constructor; [now apply IH | now apply Forall_le_of_map].
Qed.

End SortSnoc.

(** ** [add_node] and [find_node] together *)

Section RingLookup.

Variable st : store.

Local Abbreviation ident node := (identifier (st node)).
Local Abbreviation by_ident := (fun node : loc => identifier (st node)).

(** *** What [add_node] does to the membership *)

(** [add_node] never drops or rejects a node: the ring has one member more,
    and its members are the old members and the new node. *)
Theorem add_node_adds_one_member (n : loc) (r : ChordRing) :
  length (nodes (snd (add_node st n r))) = S (length (nodes r))
  /\ forall m, m ∈ nodes (snd (add_node st n r)) <-> m ∈ nodes r \/ m = n.
Proof.
  pose proof (add_node_perm st n r) as Hperm. split.
  - rewrite (Permutation_length Hperm), length_app. simpl. lia.
  - intros m. rewrite Hperm, elem_of_app, list_elem_of_singleton. tauto.
Qed.

Lemma add_nodes_nonempty (ns : list loc) :
  ns <> [] -> nodes (add_nodes st ns ChordRing_init) <> [].
Proof.
  intros Hne Hnil. pose proof (add_nodes_perm st ns ChordRing_init) as Hperm.
  rewrite Hnil in Hperm. simpl in Hperm.
  apply Permutation_nil in Hperm. congruence.
Qed.

Lemma add_nodes_ring_sorted (ns : list loc) :
  StronglySorted Z.le (member_ids st (add_nodes st ns ChordRing_init)).
Proof. apply add_nodes_sorted. constructor. Qed.

Lemma map_injective_on (l1 l2 : list loc) :
  (forall x y, x ∈ l1 -> y ∈ l2 -> ident x = ident y -> x = y) ->
  List.map by_ident l1 = List.map by_ident l2 -> l1 = l2.
Proof.
  revert l2. induction l1 as [| x l1 IH]; intros [| y l2] Hinj Hmap;
    try discriminate; [reflexivity |].
  cbn [List.map] in Hmap. injection Hmap as Hxy Hrest. f_equal.
  - apply Hinj; [apply elem_of_cons; now left .. | exact Hxy].
  - apply IH; [| exact Hrest].
    intros a b Ha Hb. apply Hinj; apply elem_of_cons; now right.
Qed.

(** The order of the [add_node] calls does not show in the identifiers of
    the ring; when the nodes added have different identifiers it does not
    show in the member list either. *)
Theorem add_nodes_order_independent (ns ns' : list loc) :
  Permutation ns ns' ->
  member_ids st (add_nodes st ns ChordRing_init)
  = member_ids st (add_nodes st ns' ChordRing_init)
  /\ ((forall x y, x ∈ ns -> y ∈ ns -> ident x = ident y -> x = y) ->
      nodes (add_nodes st ns ChordRing_init)
      = nodes (add_nodes st ns' ChordRing_init)).
Proof.
  intros Hperm.
  pose proof (add_nodes_perm st ns ChordRing_init) as Hns.
  pose proof (add_nodes_perm st ns' ChordRing_init) as Hns'.
  simpl in Hns, Hns'.
  assert (Hids : member_ids st (add_nodes st ns ChordRing_init)
                 = member_ids st (add_nodes st ns' ChordRing_init)).
  { apply (StronglySorted_unique Z.le); try apply add_nodes_ring_sorted.
    unfold member_ids. apply Permutation_map.
    now rewrite Hns, Hns', Hperm. }
  split; [exact Hids |].
  intros Hinj. apply map_injective_on; [| exact Hids].
  intros x y Hx Hy. apply Hinj.
  - now rewrite <- Hns.
  - now rewrite Hperm, <- Hns'.
Qed.

Lemma add_nodes_filter (k : Z) (ns : list loc) (r : ChordRing) :
  List.filter (fun m => ident m =? k) (nodes (add_nodes st ns r))
  = List.filter (fun m => ident m =? k) (nodes r ++ ns).
Proof.
  revert r. induction ns as [| n ns IH]; intros r.
  - simpl. now rewrite app_nil_r.
  - rewrite add_nodes_cons, IH, add_node_nodes.
    replace (nodes r ++ n :: ns) with ((nodes r ++ [n]) ++ ns)
      by (now rewrite <- app_assoc).
    rewrite !(List.filter_app _ _ ns). f_equal.
    apply (list_sort_stable by_ident k).
Qed.

Lemma add_nodes_arrival_filter (k : Z) (ns : list loc) :
  List.filter (fun m => ident m =? k) (nodes (add_nodes st ns ChordRing_init))
  = List.filter (fun m => ident m =? k) ns.
Proof. apply add_nodes_filter. Qed.

(** Nodes with the same identifier stand in the ring in the order in which
    they were added. *)
Theorem add_nodes_keep_arrival_order (k : Z) (ns : list loc) :
  List.filter (fun m => ident m =? k) (nodes (add_nodes st ns ChordRing_init))
  = List.filter (fun m => ident m =? k) ns.
Proof. apply add_nodes_filter. Qed.

(** *** What [find_node] returns *)

(** On any ring with a member, sorted or not, [find_node] returns a member:
    the remainder keeps the index within the list, so the call raises
    neither [IndexError] nor [ZeroDivisionError]. *)
Theorem find_node_returns_member (key : string) (r : ChordRing) :
  nodes r <> [] ->
  exists node, find_node st key r = (Return node, r) /\ node ∈ nodes r.
Proof.
  intros Hne. rewrite (find_node_unfold st key r _ (hash_key_value key)).
  assert (Hpos : (0 < length (nodes r))%nat)
    by (destruct (nodes r); [congruence | simpl; lia]).
  destruct (Nat.eqb_spec (length (nodes r)) 0) as [Hz | _]; [lia |].
  set (b := bisect_left _ _).
  assert (Hidx : (b mod length (nodes r) < length (nodes r))%nat)
    by (apply Nat.mod_upper_bound; lia).
  destruct (lookup_lt_is_Some_2 (nodes r) _ Hidx) as [node Hnode].
  rewrite Hnode. exists node. split; [reflexivity |].
  eapply list_elem_of_lookup_2; exact Hnode.
Qed.

(** A ring with one member gives that member for every key. *)
Theorem find_node_single_member (key : string) (r : ChordRing) (n : loc) :
  nodes r = [n] -> find_node st key r = (Return n, r).
Proof.
  intros Hone. rewrite (find_node_unfold st key r _ (hash_key_value key)).
  rewrite Hone. cbn [length Nat.eqb]. now rewrite Nat.mod_1_r.
Qed.

Lemma first_ge_lookup (h : Z) (l : list loc) (b : nat) :
  (forall i, (i < b)%nat -> nth i (List.map by_ident l) 0 < h) ->
  (forall i, (b <= i < length l)%nat -> h <= nth i (List.map by_ident l) 0) ->
  first_ge st h l = l !! b.
Proof.
  revert b. induction l as [| y l IH]; intros b Hlo Hhi; [reflexivity |].
  cbn [first_ge]. destruct b as [| b].
  - specialize (Hhi 0%nat). cbn in Hhi.
    destruct (Z.leb_spec h (ident y)); [reflexivity | lia].
  - pose proof (Hlo 0%nat) as Hy. cbn in Hy.
    destruct (Z.leb_spec h (ident y)); [lia |].
    cbn [lookup list_lookup]. apply IH.
    + intros i Hi. apply (Hlo (S i)). lia.
    + intros i Hi. apply (Hhi (S i)). simpl. lia.
Qed.

(** On a ring in ascending order the binary search of [find_node] finds
    what a scan from the front finds. *)
Lemma find_node_linear (key : string) (r : ChordRing) (h : Z) :
  StronglySorted Z.le (member_ids st r) ->
  nodes r <> [] ->
  hash_key key = Return h ->
  exists node,
    successor_of st h (nodes r) = Some node
    /\ find_node st key r = (Return node, r).
Proof.
  intros Hsorted Hne Hh. rewrite (find_node_unfold st key r h Hh).
  assert (Hlen : length (member_ids st r) = length (nodes r))
    by apply length_map.
  destruct (bisect_left_spec (member_ids st r) h Hsorted) as (Hb & Hlo & Hhi).
  set (b := bisect_left (member_ids st r) h) in *.
  assert (Hpos : (0 < length (nodes r))%nat)
    by (destruct (nodes r); [congruence | simpl; lia]).
  destruct (Nat.eqb_spec (length (nodes r)) 0) as [Hz | _]; [lia |].
  assert (Hfirst : first_ge st h (nodes r) = nodes r !! b).
  { apply first_ge_lookup; [exact Hlo |].
    intros i Hi. apply Hhi. lia. }
  unfold successor_of. rewrite Hfirst.
  destruct (decide (b < length (nodes r))%nat) as [Hin | Hout].
  - rewrite Nat.mod_small by exact Hin.
    destruct (lookup_lt_is_Some_2 (nodes r) b Hin) as [node Hnode].
    rewrite Hnode. now exists node.
  - assert (Hb_eq : b = length (nodes r)) by lia.
    rewrite Hb_eq, Nat.Div0.mod_same.
    rewrite (lookup_ge_None_2 (nodes r) (length (nodes r))) by lia.
    rewrite head_lookup.
    destruct (lookup_lt_is_Some_2 (nodes r) 0 Hpos) as [node Hnode].
    rewrite Hnode. now exists node.
Qed.

(** On a ring built by [add_node] calls, [find_node] returns the first
    member, in list order, whose identifier is at least the hashed key, and
    the first member of the list when there is none. *)
Theorem find_node_is_first_at_or_after (ns : list loc) (key : string) :
  ns <> [] ->
  let r := add_nodes st ns ChordRing_init in
  exists h node,
    hash_key key = Return h
    /\ successor_of st h (nodes r) = Some node
    /\ find_node st key r = (Return node, r).
Proof.
  intros Hne r. exists (Sha1.be_value (Sha1.digest (encode key))).
  destruct (find_node_linear key r _ (add_nodes_ring_sorted ns)
              (add_nodes_nonempty ns Hne) (hash_key_value key))
    as (node & Hsucc & Hfind).
  exists node. split; [apply hash_key_value | now split].
Qed.

(** *** A new node takes keys, it does not shuffle them *)

Lemma first_ge_insert_last (h : Z) (n : loc) (l : list loc) :
  first_ge st h (insert_last by_ident n l) = Some n
  \/ first_ge st h (insert_last by_ident n l) = first_ge st h l.
Proof.
  induction l as [| y l IH]; cbn [insert_last first_ge].
  - destruct (h <=? ident n); [now left | now right].
  - destruct (ident y <=? ident n); cbn [first_ge].
    + destruct (h <=? ident y); [now right | exact IH].
    + destruct (h <=? ident n); [now left | now right].
Qed.

Lemma head_insert_last (n : loc) (l : list loc) :
  head (insert_last by_ident n l) = Some n
  \/ head (insert_last by_ident n l) = head l.
Proof.
  destruct l as [| y l]; cbn [insert_last]; [now left |].
  destruct (ident y <=? ident n); [now right | now left].
Qed.

Lemma successor_of_insert_last (h : Z) (n : loc) (l : list loc) :
  successor_of st h (insert_last by_ident n l) = Some n
  \/ successor_of st h (insert_last by_ident n l) = successor_of st h l.
Proof.
  unfold successor_of.
  destruct (first_ge_insert_last h n l) as [-> | ->]; [now left |].
  destruct (first_ge st h l); [now right | apply head_insert_last].
Qed.

Lemma add_node_insert_last (n : loc) (r : ChordRing) :
  StronglySorted Z.le (member_ids st r) ->
  nodes (snd (add_node st n r)) = insert_last by_ident n (nodes r).
Proof.
  intros Hsorted. rewrite add_node_nodes.
  apply list_sort_snoc, sorted_by_key_of_map. exact Hsorted.
Qed.

(** Adding a node moves keys to the new node only: a key that [find_node]
    gave to a member before the [add_node] call goes to the same member
    after it, or to the node added. *)
Theorem add_node_moves_keys_to_new_node_only
    (ns : list loc) (n : loc) (key : string) (node node' : loc) :
  let r := add_nodes st ns ChordRing_init in
  fst (find_node st key r) = Return node ->
  fst (find_node st key (snd (add_node st n r))) = Return node' ->
  node' = node \/ node' = n.
Proof.
  intros r Hbefore Hafter.
  pose proof (add_nodes_ring_sorted ns) as Hsorted. fold r in Hsorted.
  assert (Hne : nodes r <> []).
  { intros Hnil. rewrite (find_node_no_members st key r Hnil) in Hbefore.
    discriminate. }
  destruct (find_node_linear key r _ Hsorted Hne (hash_key_value key))
    as (m & Hsucc & Hfind).
  rewrite Hfind in Hbefore. injection Hbefore as <-.
  assert (Hne' : nodes (snd (add_node st n r)) <> []).
  { rewrite (add_node_insert_last n r Hsorted).
    destruct (nodes r) as [| y l]; cbn [insert_last]; [discriminate |].
    destruct (ident y <=? ident n); discriminate. }
  destruct (find_node_linear key (snd (add_node st n r)) _
              (add_node_sorted st n r) Hne' (hash_key_value key))
    as (m' & Hsucc' & Hfind').
  rewrite Hfind' in Hafter. injection Hafter as <-.
  rewrite (add_node_insert_last n r Hsorted) in Hsucc'.
  destruct (successor_of_insert_last
              (Sha1.be_value (Sha1.digest (encode key))) n (nodes r))
    as [Hnew | Hold].
  - right. congruence.
  - left. congruence.
Qed.

(** *** The owner of a key and [in_range] *)

Lemma sorted_nodup_nth_lt (a : list Z) (i j : nat) :
  StronglySorted Z.le a -> NoDup a ->
  (i < j < length a)%nat -> nth i a 0 < nth j a 0.
Proof.
  intros Hsorted Hnodup Hij.
  pose proof (sorted_nth_le a Hsorted i j ltac:(lia)) as Hle.
  destruct (Z.eq_dec (nth i a 0) (nth j a 0)) as [Heq | Hne]; [| lia].
  destruct (lookup_lt_is_Some_2 a i ltac:(lia)) as [x Hx].
  destruct (lookup_lt_is_Some_2 a j ltac:(lia)) as [y Hy].
  rewrite (nth_lookup_Some a i 0 x Hx), (nth_lookup_Some a j 0 y Hy) in Heq.
  subst y. pose proof (NoDup_lookup a i j x Hnodup Hx Hy). lia.
Qed.

Lemma ring_index_cases (b n : nat) :
  (2 <= n)%nat -> (b <= n)%nat ->
  ((0 < b < n)%nat
   /\ (b mod n = b)%nat /\ ((b mod n + n - 1) mod n = b - 1)%nat)
  \/ ((b = 0 \/ b = n)%nat
      /\ (b mod n = 0)%nat /\ ((b mod n + n - 1) mod n = n - 1)%nat).
Proof.
  intros Hn Hb.
  destruct (decide (0 < b < n)%nat) as [Hmid | Hend].
  - left. split; [exact Hmid |].
    rewrite (Nat.mod_small b n) by lia. split; [reflexivity |].
    replace (b + n - 1)%nat with (b - 1 + 1 * n)%nat by lia.
    rewrite Nat.Div0.mod_add. apply Nat.mod_small. lia.
  - right. assert (Hb0 : (b = 0 \/ b = n)%nat) by lia.
    split; [exact Hb0 |].
    assert (Hmod : (b mod n = 0)%nat).
    { destruct Hb0 as [-> | ->];
        [apply Nat.mod_small; lia | apply Nat.Div0.mod_same]. }
    rewrite Hmod. split; [reflexivity |].
    apply Nat.mod_small. lia.
Qed.

(** On a ring of two or more nodes with different identifiers, the hashed
    key is in the range that [in_range] gives the member returned: from the
    identifier of the member before it in the list, the last member for the
    first, to its own identifier. *)
Theorem find_node_key_in_owner_range
    (ns : list loc) (key : string) (h : Z) (node : loc) :
  let r := add_nodes st ns ChordRing_init in
  NoDup (member_ids st r) ->
  (2 <= length (nodes r))%nat ->
  hash_key key = Return h ->
  fst (find_node st key r) = Return node ->
  exists i p,
    nodes r !! i = Some node
    /\ nodes r !! ((i + length (nodes r) - 1) mod length (nodes r))%nat = Some p
    /\ in_range h (ident p) (ident node) = true.
Proof.
  intros r Hnodup Hlen2 Hh Hfind.
  pose proof (add_nodes_ring_sorted ns) as Hsorted. fold r in Hsorted.
  rewrite (find_node_unfold st key r h Hh) in Hfind. cbn [fst] in Hfind.
  assert (Hlen : length (member_ids st r) = length (nodes r))
    by apply length_map.
  destruct (bisect_left_spec (member_ids st r) h Hsorted) as (Hb & Hlo & Hhi).
  set (b := bisect_left (member_ids st r) h) in *.
  set (n := length (nodes r)) in *.
  destruct (Nat.eqb_spec n 0) as [Hz | _]; [lia |].
  destruct (nodes r !! (b mod n)%nat) as [node0 |] eqn:Hnode; [| discriminate].
  injection Hfind as ->.
  exists (b mod n)%nat.
  assert (Hpi : ((b mod n + n - 1) mod n < length (nodes r))%nat)
    by (apply Nat.mod_upper_bound; lia).
  destruct (lookup_lt_is_Some_2 (nodes r) _ Hpi) as [p Hp].
  exists p. split; [exact Hnode |]. split; [exact Hp |].
  pose proof (nth_member_ids st r _ node Hnode) as Hid.
  pose proof (nth_member_ids st r _ p Hp) as Hidp.
  rewrite <- Hid, <- Hidp.
  destruct (ring_index_cases b n Hlen2 ltac:(lia))
    as [(Hmid & -> & ->) | (Hends & -> & ->)].
  - apply in_range_no_wrap.
    + apply (sorted_nth_le _ Hsorted). lia.
    + split; [apply Hlo; lia | apply Hhi; lia].
  - pose proof (sorted_nodup_nth_lt (member_ids st r) 0 (n - 1)
                  Hsorted Hnodup ltac:(lia)) as Hlt.
    apply in_range_wrap; [lia |].
    destruct Hends as [Hb0 | Hbn].
    + right. apply Hhi. lia.
    + left. apply Z.lt_gt, Hlo. lia.
Qed.

(** A node whose identifier is the hash of a name is found under that
    name: when the ring holds a node with identifier [hash_key(key)],
    [find_node(key)] returns a node with that identifier. *)
Theorem find_node_finds_hashed_identifier
    (ns : list loc) (key : string) (h : Z) (n : loc) :
  n ∈ ns ->
  hash_key key = Return h ->
  ident n = h ->
  exists node,
    fst (find_node st key (add_nodes st ns ChordRing_init)) = Return node
    /\ ident node = h.
Proof.
  intros Hn Hh Hid.
  assert (Hne : ns <> []) by (intros ->; now apply elem_of_nil in Hn).
  destruct (find_node_on_sorted st key _ (add_nodes_ring_sorted ns)
              (add_nodes_nonempty ns Hne))
    as (h' & node & Hh' & Hfind & Hmem & Hcases).
  rewrite Hh in Hh'. injection Hh' as <-.
  assert (Hn' : n ∈ nodes (add_nodes st ns ChordRing_init))
    by (now rewrite (add_nodes_perm st ns ChordRing_init)).
  exists node. rewrite Hfind. split; [reflexivity |].
  destruct Hcases as [[Hge Hleast] | [Hall _]].
  - specialize (Hleast n Hn'). lia.
  - specialize (Hall n Hn'). lia.
Qed.

(** *** Nodes with the same identifier *)

Lemma first_ge_split (h : Z) (l : list loc) (node : loc) :
  first_ge st h l = Some node ->
  exists pre post,
    l = pre ++ node :: post
    /\ (forall m, m ∈ pre -> ident m < h)
    /\ h <= ident node.
Proof.
  induction l as [| y l IH]; cbn [first_ge]; [discriminate |].
  destruct (Z.leb_spec h (ident y)) as [Hle | Hgt].
  - intros [= <-]. exists [], l. split; [reflexivity |].
    split; [| exact Hle]. intros m Hm. now apply elem_of_nil in Hm.
  - intros Hfirst. destruct (IH Hfirst) as (pre & post & -> & Hpre & Hge).
    exists (y :: pre), post. split; [reflexivity |]. split; [| exact Hge].
    intros m [-> | Hm]%elem_of_cons; [exact Hgt | now apply Hpre].
Qed.

Lemma filter_none (P : loc -> bool) (l : list loc) :
  (forall m, m ∈ l -> P m = false) -> List.filter P l = [].
Proof.
  induction l as [| y l IH]; intros Hall; [reflexivity |].
  cbn [List.filter]. rewrite (Hall y) by (apply elem_of_cons; now left).
  apply IH. intros m Hm. apply Hall, elem_of_cons. now right.
Qed.

(** Among the nodes added that share the identifier of the member
    [find_node] returns, that member is the one added first. *)
Theorem find_node_prefers_first_added
    (ns : list loc) (key : string) (node : loc) :
  fst (find_node st key (add_nodes st ns ChordRing_init)) = Return node ->
  exists rest,
    List.filter (fun m => ident m =? ident node) ns = node :: rest.
Proof.
  intros Hfind. set (r := add_nodes st ns ChordRing_init) in *.
  assert (Hne : nodes r <> []).
  { intros Hnil. rewrite (find_node_no_members st key r Hnil) in Hfind.
    discriminate. }
  destruct (find_node_linear key r _ (add_nodes_ring_sorted ns) Hne
              (hash_key_value key)) as (m & Hsucc & Hfind').
  rewrite Hfind' in Hfind. injection Hfind as <-.
  rewrite <- (add_nodes_arrival_filter (ident m) ns). fold r.
  unfold successor_of in Hsucc.
  destruct (first_ge st _ (nodes r)) as [m0 |] eqn:Hfirst.
  - injection Hsucc as ->.
    destruct (first_ge_split _ _ _ Hfirst) as (pre & post & -> & Hpre & Hge).
    rewrite List.filter_app, filter_none.
    + cbn [List.filter app]. rewrite Z.eqb_refl. now eexists.
    + intros x Hx. specialize (Hpre x Hx). apply Z.eqb_neq. lia.
  - destruct (nodes r) as [| y l]; [discriminate |].
    injection Hsucc as ->. cbn [List.filter]. rewrite Z.eqb_refl. now eexists.
Qed.

End RingLookup.

(** *** The owner is the only member whose range holds the key *)

Section RingOwner.

Variable st : store.

Local Abbreviation ident node := (identifier (st node)).

(** On a ring of two or more nodes with different identifiers, the member
    [find_node] returns is the only one whose range, from the identifier of
    the member before it to its own, holds the hashed key. *)
Theorem find_node_owner_unique
    (ns : list loc) (key : string) (h : Z) (node : loc)
    (j : nat) (m p : loc) :
  let r := add_nodes st ns ChordRing_init in
  NoDup (member_ids st r) ->
  (2 <= length (nodes r))%nat ->
  hash_key key = Return h ->
  fst (find_node st key r) = Return node ->
  nodes r !! j = Some m ->
  nodes r !! ((j + length (nodes r) - 1) mod length (nodes r))%nat = Some p ->
  in_range h (ident p) (ident m) = true ->
  m = node.
Proof.
  intros r Hnodup Hlen2 Hh Hfind Hm Hp Hin.
  pose proof (add_nodes_ring_sorted st ns) as Hsorted. fold r in Hsorted.
  rewrite (find_node_unfold st key r h Hh) in Hfind. cbn [fst] in Hfind.
  assert (Hlen : length (member_ids st r) = length (nodes r))
    by apply length_map.
  destruct (bisect_left_spec (member_ids st r) h Hsorted) as (Hb & Hlo & Hhi).
  set (b := bisect_left (member_ids st r) h) in *.
  set (n := length (nodes r)) in *.
  destruct (Nat.eqb_spec n 0) as [Hz | _]; [lia |].
  destruct (nodes r !! (b mod n)%nat) as [node0 |] eqn:Hnode; [| discriminate].
  injection Hfind as ->.
  assert (Hj : (j < n)%nat) by (eapply lookup_lt_Some; exact Hm).
  pose proof (nth_member_ids st r _ m Hm) as Hidm.
  pose proof (nth_member_ids st r _ p Hp) as Hidp.
  rewrite <- Hidm, <- Hidp in Hin.
  assert (Hsame : (b mod n = j)%nat); [| rewrite Hsame in Hnode; congruence].
  destruct (ring_index_cases b n Hlen2 ltac:(lia))
    as [(Hmid & Hbi & _) | (Hends & Hbi & _)]; rewrite Hbi.
  - destruct j as [| j].
    + rewrite Nat.add_0_l, Nat.mod_small in Hin by lia.
      pose proof (sorted_nodup_nth_lt (member_ids st r) 0 (n - 1)
                    Hsorted Hnodup ltac:(lia)) as Hlt.
      apply in_range_wrap in Hin; [| lia].
      destruct Hin as [Hgt | Hle].
      * pose proof (Hhi (n - 1)%nat ltac:(lia)). lia.
      * pose proof (Hlo 0%nat ltac:(lia)). lia.
    + replace (S j + n - 1)%nat with (j + 1 * n)%nat in Hin by lia.
      rewrite Nat.Div0.mod_add, Nat.mod_small in Hin by lia.
      apply in_range_no_wrap in Hin;
        [| apply (sorted_nth_le _ Hsorted); lia].
      destruct (decide (b <= j)%nat) as [Hbj | Hbj];
        [pose proof (Hhi j ltac:(lia)); lia |].
      destruct (decide (S j < b)%nat) as [Hjb | Hjb];
        [pose proof (Hlo (S j) Hjb); lia | lia].
  - destruct j as [| j]; [reflexivity |]. exfalso.
    replace (S j + n - 1)%nat with (j + 1 * n)%nat in Hin by lia.
    rewrite Nat.Div0.mod_add, Nat.mod_small in Hin by lia.
    apply in_range_no_wrap in Hin;
      [| apply (sorted_nth_le _ Hsorted); lia].
    destruct Hends as [Hb0 | Hbn].
    + pose proof (Hhi j ltac:(lia)). lia.
    + pose proof (Hlo (S j) ltac:(lia)). lia.
Qed.

End RingOwner.

(** ** The further properties on sample rings *)

Example main_runs :
  main
  = (["Node responsible for 'key1': 261170007327692568197095477523293501092486196158";
      "Node responsible for 'key2': 1422782272889934309514053401711921772469756363674"]%string,
     Return tt).
Proof. vm_compute. reflexivity. Qed.

Lemma perm_201_012 : Permutation [2; 0; 1]%nat [0; 1; 2]%nat.
Proof.
  apply (perm_trans (l' := [0; 2; 1]%nat)); [apply perm_swap |].
  apply perm_skip, perm_swap.
Defined.

Lemma st_three_distinct (x y : loc) :
  x ∈ [2; 0; 1]%nat -> y ∈ [2; 0; 1]%nat ->
  identifier (st_three x) = identifier (st_three y) -> x = y.
Proof.
  intros Hx Hy.
  repeat (apply elem_of_cons in Hx as [-> | Hx]);
    try (now apply elem_of_nil in Hx);
    repeat (apply elem_of_cons in Hy as [-> | Hy]);
    try (now apply elem_of_nil in Hy);
    cbn; intros Heq; try reflexivity; discriminate.
Qed.

Lemma add_nodes_order_independent_witness :
  Permutation [2; 0; 1]%nat [0; 1; 2]%nat
  /\ member_ids st_three (add_nodes st_three [2; 0; 1]%nat ChordRing_init)
     = member_ids st_three (add_nodes st_three [0; 1; 2]%nat ChordRing_init)
  /\ nodes (add_nodes st_three [2; 0; 1]%nat ChordRing_init)
     = nodes (add_nodes st_three [0; 1; 2]%nat ChordRing_init).
Proof.
  split; [exact perm_201_012 |].
  destruct (add_nodes_order_independent st_three _ _ perm_201_012)
    as [Hids Hnodes].
  split; [exact Hids | exact (Hnodes st_three_distinct)].
Defined.

Lemma find_node_returns_member_witness :
  nodes (mkRing [2; 0]%nat) <> []
  /\ exists node,
       find_node st_three "key1" (mkRing [2; 0]%nat)
       = (Return node, mkRing [2; 0]%nat)
       /\ node ∈ nodes (mkRing [2; 0]%nat).
Proof.
  assert (Hne : nodes (mkRing [2; 0]%nat) <> []) by discriminate.
  split; [exact Hne |].
  exact (find_node_returns_member st_three "key1" (mkRing [2; 0]%nat) Hne).
Defined.

Lemma find_node_single_member_witness :
  nodes (add_nodes st_three [1]%nat ChordRing_init) = [1]%nat
  /\ find_node st_three "key1" (add_nodes st_three [1]%nat ChordRing_init)
     = (Return 1%nat, add_nodes st_three [1]%nat ChordRing_init).
Proof.
  split; [reflexivity |].
  exact (find_node_single_member st_three "key1"
           (add_nodes st_three [1]%nat ChordRing_init) 1%nat eq_refl).
Defined.

Lemma find_node_is_first_at_or_after_witness :
  [2; 0; 1]%nat <> []
  /\ let r := add_nodes st_three [2; 0; 1]%nat ChordRing_init in
     exists h node,
       hash_key "key1" = Return h
       /\ successor_of st_three h (nodes r) = Some node
       /\ find_node st_three "key1" r = (Return node, r).
Proof.
  assert (Hne : [2; 0; 1]%nat <> []) by discriminate.
  split; [exact Hne |].
  exact (find_node_is_first_at_or_after st_three [2; 0; 1]%nat "key1" Hne).
Defined.

Lemma find_node_wide_before :
  fst (find_node st_wide "key1" (add_nodes st_wide [0; 1]%nat ChordRing_init))
  = Return 0%nat.
Proof. vm_compute. reflexivity. Qed.

Lemma find_node_wide_after :
  fst (find_node st_wide "key1"
         (snd (add_node st_wide 2%nat
                 (add_nodes st_wide [0; 1]%nat ChordRing_init))))
  = Return 2%nat.
Proof. vm_compute. reflexivity. Qed.

Lemma add_node_moves_keys_to_new_node_only_witness :
  fst (find_node st_wide "key1" (add_nodes st_wide [0; 1]%nat ChordRing_init))
  = Return 0%nat
  /\ fst (find_node st_wide "key1"
            (snd (add_node st_wide 2%nat
                    (add_nodes st_wide [0; 1]%nat ChordRing_init))))
     = Return 2%nat
  /\ (2%nat = 0%nat \/ 2%nat = 2%nat).
Proof.
  split; [exact find_node_wide_before |].
  split; [exact find_node_wide_after |].
  exact (add_node_moves_keys_to_new_node_only st_wide [0; 1]%nat 2%nat "key1"
           0%nat 2%nat find_node_wide_before find_node_wide_after).
Defined.

Lemma st_three_ring_nodup :
  NoDup (member_ids st_three (add_nodes st_three [2; 0; 1]%nat ChordRing_init)).
Proof.
  change (NoDup [10; 60; 180]).
  repeat (apply NoDup_cons; split;
          [rewrite ?elem_of_cons, elem_of_nil; lia |]).
  apply NoDup_nil_2.
Qed.

Lemma st_three_ring_length :
  (2 <= length (nodes (add_nodes st_three [2; 0; 1]%nat ChordRing_init)))%nat.
Proof. cbn. lia. Qed.

Lemma find_node_three_key1 :
  fst (find_node st_three "key1"
         (add_nodes st_three [2; 0; 1]%nat ChordRing_init))
  = Return 0%nat.
Proof. vm_compute. reflexivity. Qed.

Lemma find_node_key_in_owner_range_witness :
  NoDup (member_ids st_three (add_nodes st_three [2; 0; 1]%nat ChordRing_init))
  /\ (2 <= length (nodes (add_nodes st_three [2; 0; 1]%nat ChordRing_init)))%nat
  /\ hash_key "key1" = Return 0x1073ab6cda4b991cd29f9e83a307f34004ae9327
  /\ fst (find_node st_three "key1"
            (add_nodes st_three [2; 0; 1]%nat ChordRing_init))
     = Return 0%nat
  /\ let r := add_nodes st_three [2; 0; 1]%nat ChordRing_init in
     exists i p,
       nodes r !! i = Some 0%nat
       /\ nodes r !! ((i + length (nodes r) - 1) mod length (nodes r))%nat = Some p
       /\ in_range 0x1073ab6cda4b991cd29f9e83a307f34004ae9327
            (identifier (st_three p)) (identifier (st_three 0%nat)) = true.
Proof.
  split; [exact st_three_ring_nodup |].
  split; [exact st_three_ring_length |].
  split; [exact hash_key_key1 |].
  split; [exact find_node_three_key1 |].
  exact (find_node_key_in_owner_range st_three [2; 0; 1]%nat "key1" _ 0%nat
           st_three_ring_nodup st_three_ring_length hash_key_key1
           find_node_three_key1).
Defined.

Lemma st_three_last_before_first :
  nodes (add_nodes st_three [2; 0; 1]%nat ChordRing_init)
    !! ((0 + length (nodes (add_nodes st_three [2; 0; 1]%nat ChordRing_init)) - 1)
        mod length (nodes (add_nodes st_three [2; 0; 1]%nat ChordRing_init)))%nat
  = Some 2%nat.
Proof. reflexivity. Qed.

Lemma find_node_owner_unique_witness :
  NoDup (member_ids st_three (add_nodes st_three [2; 0; 1]%nat ChordRing_init))
  /\ (2 <= length (nodes (add_nodes st_three [2; 0; 1]%nat ChordRing_init)))%nat
  /\ hash_key "key1" = Return 0x1073ab6cda4b991cd29f9e83a307f34004ae9327
  /\ in_range 0x1073ab6cda4b991cd29f9e83a307f34004ae9327
       (identifier (st_three 2%nat)) (identifier (st_three 0%nat)) = true
  /\ 0%nat = 0%nat.
Proof.
  assert (Hin : in_range 0x1073ab6cda4b991cd29f9e83a307f34004ae9327
                  (identifier (st_three 2%nat)) (identifier (st_three 0%nat))
                = true) by reflexivity.
  split; [exact st_three_ring_nodup |].
  split; [exact st_three_ring_length |].
  split; [exact hash_key_key1 |].
  split; [exact Hin |].
  exact (find_node_owner_unique st_three [2; 0; 1]%nat "key1" _ 0%nat
           0%nat 0%nat 2%nat
           st_three_ring_nodup st_three_ring_length hash_key_key1
           find_node_three_key1 eq_refl st_three_last_before_first Hin).
Defined.

Lemma hash_key_node1 :
  hash_key "node1" = Return 0xf937c37e949d9efa20d2958af309235c73ec039a.
Proof. vm_compute. reflexivity. Qed.

Lemma find_node_finds_hashed_identifier_witness :
  1%nat ∈ [1; 0]%nat
  /\ hash_key "node1" = Return 0xf937c37e949d9efa20d2958af309235c73ec039a
  /\ identifier (main_store 0x2dbf44a68b77b15bfa5bc3d66c97892a57402bbe
                   0xf937c37e949d9efa20d2958af309235c73ec039a 1%nat)
     = 0xf937c37e949d9efa20d2958af309235c73ec039a
  /\ exists node,
       fst (find_node
              (main_store 0x2dbf44a68b77b15bfa5bc3d66c97892a57402bbe
                 0xf937c37e949d9efa20d2958af309235c73ec039a)
              "node1"
              (add_nodes
                 (main_store 0x2dbf44a68b77b15bfa5bc3d66c97892a57402bbe
                    0xf937c37e949d9efa20d2958af309235c73ec039a)
                 [1; 0]%nat ChordRing_init))
       = Return node
       /\ identifier (main_store 0x2dbf44a68b77b15bfa5bc3d66c97892a57402bbe
                        0xf937c37e949d9efa20d2958af309235c73ec039a node)
          = 0xf937c37e949d9efa20d2958af309235c73ec039a.
Proof.
  assert (Hin : 1%nat ∈ [1; 0]%nat) by (apply elem_of_cons; now left).
  split; [exact Hin |]. split; [exact hash_key_node1 |].
  split; [reflexivity |].
  exact (find_node_finds_hashed_identifier
           (main_store 0x2dbf44a68b77b15bfa5bc3d66c97892a57402bbe
              0xf937c37e949d9efa20d2958af309235c73ec039a)
           [1; 0]%nat "node1" _ 1%nat Hin hash_key_node1 eq_refl).
Defined.

Lemma find_node_collide_key1 :
  fst (find_node st_collide "key1"
         (add_nodes st_collide [2; 1; 0]%nat ChordRing_init))
  = Return 2%nat.
Proof. vm_compute. reflexivity. Qed.

Lemma find_node_prefers_first_added_witness :
  fst (find_node st_collide "key1"
         (add_nodes st_collide [2; 1; 0]%nat ChordRing_init))
  = Return 2%nat
  /\ exists rest,
       List.filter
         (fun m => identifier (st_collide m) =? identifier (st_collide 2%nat))
         [2; 1; 0]%nat
       = 2%nat :: rest.
Proof.
  split; [exact find_node_collide_key1 |].
  exact (find_node_prefers_first_added st_collide [2; 1; 0]%nat "key1" 2%nat
           find_node_collide_key1).
Defined.
